(** * The board engine of the 1024-ish game (src/main.cpp)

    A shallow embedding of [class Board]: the 4x4 grid, the slide-left
    primitive, the rotations that derive the other three directions, the
    random spawn, the constructor, [move] and the two queries; then of
    [display] and of the driver [main].

    Modelling conventions.
    - [int grid[4][4]] is a list of rows, each a list of cells; a cell is
      read with [cell g i j] and written with [set_cell g i j v].  The
      class only ever holds a 4x4 array, which is the predicate [wf_grid].
    - A C++ [int] is a [Z].  The only arithmetic in the engine is the
      doubling [newRow.back() *= 2]; signed overflow is undefined in C++,
      so the model is the code for every grid whose merges stay below
      2^31.  A slide keeps the sum of each row ([slideRow_sum]) and a
      spawn adds at most 4, so after [n] moves no cell exceeds 8 + 4n
      ([played_bound]).
    - A [for] loop over [0 .. BOARD_SIZE-1] is a [fold_left] over
      [seq 0 BOARD_SIZE] with the mutated variables as the accumulator.
    - The random source of mersenne-twister.h is not part of the sources:
      it is a parameter [chooseRandomNumber lo hi] acting on an abstract
      generator state, with the contract [in_range] (the result lies in
      the closed interval). *)

From Stdlib Require Import Ascii String ZArith List Lia Bool PeanoNat.
From Stdlib Require Import DecimalString.
Import ListNotations.
Local Open Scope Z_scope.

(** ** Data model *)

Definition BOARD_SIZE : nat := 4.

Definition Grid := list (list Z).

Record Board := mkBoard { grid : Grid; winTarget : Z }.

Fixpoint update {A : Type} (n : nat) (x : A) (l : list A) : list A :=
  match l, n with
  | [], _ => []
  | _ :: t, O => x :: t
  | h :: t, S n' => h :: update n' x t
  end.

(** [grid[i][j]] *)
Definition cell (g : Grid) (i j : nat) : Z := nth j (nth i g []) 0.

(** [grid[i][j] = v] *)
Definition set_cell (g : Grid) (i j : nat) (v : Z) : Grid :=
  update i (update j v (nth i g [])) g.

Definition wf_row (r : list Z) : bool := Nat.eqb (length r) BOARD_SIZE.

Definition wf_grid (g : Grid) : bool :=
  Nat.eqb (length g) BOARD_SIZE && forallb wf_row g.

(** The indices a loop [for (int i = 0; i < BOARD_SIZE; i++)] runs over. *)
Definition indices : list nat := seq 0 BOARD_SIZE.

(** ** std::vector<int> newRow *)

Definition empty (v : list Z) : bool :=
  match v with [] => true | _ => false end.

Definition back (v : list Z) : Z := last v 0.

Definition set_back (v : list Z) (x : Z) : list Z := removelast v ++ [x].

Definition push_back (v : list Z) (x : Z) : list Z := v ++ [x].

(** ** slidePiecesLeft *)

(** Body of the "combine and slide" loop for one cell value [x]; the
    state is [newRow] and the flag [moved]. *)
Definition combine_step (st : list Z * bool) (x : Z) : list Z * bool :=
  let '(newRow, moved) := st in
  if negb (x =? 0) then
    if negb (empty newRow) && (back newRow =? x)
    then (set_back newRow (back newRow * 2), true)
    else (push_back newRow x, moved)
  else (newRow, moved).

(** [while (newRow.size() < BOARD_SIZE) newRow.push_back(0);] *)
Definition pad (newRow : list Z) : list Z :=
  newRow ++ repeat 0 (BOARD_SIZE - length newRow)%nat.

(** Body of the "check if row changed" loop. *)
Definition write_step (row : nat) (newRow : list Z)
    (st : Grid * bool) (col : nat) : Grid * bool :=
  let '(g, moved) := st in
  if negb (cell g row col =? nth col newRow 0)
  then (set_cell g row col (nth col newRow 0), true)
  else (g, moved).

(** One iteration of the outer loop over the rows. *)
Definition slide_row_at (st : Grid * bool) (row : nat) : Grid * bool :=
  let '(g, moved) := st in
  let '(newRow, moved1) :=
    fold_left (fun s col => combine_step s (cell g row col)) indices ([], moved) in
  fold_left (write_step row (pad newRow)) indices (g, moved1).

Definition slidePiecesLeft (g : Grid) : Grid * bool :=
  fold_left slide_row_at indices (g, false).

(** ** rotateBoard *)

Definition blank : Grid := repeat (repeat 0 BOARD_SIZE) BOARD_SIZE.

Definition rotate_step (counterClockwise : bool) (g : Grid) (i : nat)
    (temp : Grid) (j : nat) : Grid :=
  if counterClockwise
  then set_cell temp (BOARD_SIZE - 1 - j) i (cell g i j)
  else set_cell temp j (BOARD_SIZE - 1 - i) (cell g i j).

Definition rotateBoard (counterClockwise : bool) (g : Grid) : Grid :=
  let temp :=
    fold_left (fun t i => fold_left (rotate_step counterClockwise g i) indices t)
              indices blank in
  fold_left (fun g' i => fold_left (fun g'' j => set_cell g'' i j (cell temp i j)) indices g')
            indices g.

Arguments rotateBoard : simpl never.
Arguments slidePiecesLeft : simpl never.

(** ** The other three directions *)

Definition slidePiecesRight (g : Grid) : Grid * bool :=
  let g := rotateBoard true g in
  let g := rotateBoard true g in
  let '(g, moved) := slidePiecesLeft g in
  let g := rotateBoard true g in
  let g := rotateBoard true g in
  (g, moved).

Definition slidePiecesUp (g : Grid) : Grid * bool :=
  let g := rotateBoard true g in
  let '(g, moved) := slidePiecesLeft g in
  let g := rotateBoard false g in
  (g, moved).

Definition slidePiecesDown (g : Grid) : Grid * bool :=
  let g := rotateBoard false g in
  let '(g, moved) := slidePiecesLeft g in
  let g := rotateBoard true g in
  (g, moved).

(** ** Queries *)

Definition checkWin (b : Board) : bool :=
  existsb (fun i => existsb (fun j => cell (grid b) i j =? winTarget b) indices) indices.

(** The three early [return false] tests of [isGameOver] at cell (i,j);
    the guards keep [j+1] and [i+1] inside the array. *)
Definition blocked_at (g : Grid) (i j : nat) : bool :=
  negb (cell g i j =? 0)
  && negb ((j <? BOARD_SIZE - 1)%nat && (cell g i j =? cell g i (j + 1)))
  && negb ((i <? BOARD_SIZE - 1)%nat && (cell g i j =? cell g (i + 1) j)).

Definition isGameOver (g : Grid) : bool :=
  forallb (fun i => forallb (fun j => blocked_at g i j) indices) indices.

(** ** Characters and modes *)

(** [std::toupper] in the "C" locale. *)
Definition toupper (c : ascii) : ascii :=
  let n := nat_of_ascii c in
  if ((97 <=? n) && (n <=? 122))%nat then ascii_of_nat (n - 32) else c.

Inductive Direction := DLeft | DRight | DUp | DDown.

(** The [switch] of [move]: which case label the character selects. *)
Definition direction_of (c : ascii) : option Direction :=
  let u := toupper c in
  if Ascii.eqb u "L"%char then Some DLeft
  else if Ascii.eqb u "R"%char then Some DRight
  else if Ascii.eqb u "U"%char then Some DUp
  else if Ascii.eqb u "D"%char then Some DDown
  else None.

Definition slide (d : Direction) (g : Grid) : Grid * bool :=
  match d with
  | DLeft => slidePiecesLeft g
  | DRight => slidePiecesRight g
  | DUp => slidePiecesUp g
  | DDown => slidePiecesDown g
  end.

(** ** The random source and what uses it *)

Section RandomSource.

Variable Rng : Type.
Variable chooseRandomNumber : Z -> Z -> Rng -> Z * Rng.

Definition getRandomStartingNumber (mode : string) (s : Rng) : Z * Rng :=
  let '(randomValue, s) := chooseRandomNumber 1 10 s in
  if String.eqb mode "E"%string then ((if randomValue <=? 5 then 2 else 4), s)
  else if String.eqb mode "M"%string then ((if randomValue <=? 7 then 2 else 4), s)
  else ((if randomValue <=? 9 then 2 else 4), s).

(** The vector [emptySquares], in the order the scan fills it. *)
Definition emptySquares (g : Grid) : list (nat * nat) :=
  fold_left
    (fun acc i =>
       fold_left (fun acc j => if cell g i j =? 0 then acc ++ [(i, j)] else acc)
                 indices acc)
    indices [].

(** [emptySquares[randomSquare]] outside the vector is undefined in
    C++; the contract of the random source excludes it, and the model
    leaves the board alone there. *)
Definition addRandomPiece (b : Board) (s : Rng) : Board * Rng :=
  let es := emptySquares (grid b) in
  match es with
  | [] => (b, s)
  | _ :: _ =>
      let '(randomSquare, s) :=
        chooseRandomNumber 0 (Z.of_nat (length es) - 1) s in
      match nth_error es (Z.to_nat randomSquare) with
      | Some (row, col) =>
          let '(v, s) :=
            getRandomStartingNumber
              (if winTarget b =? 256 then "E"%string
               else if winTarget b =? 512 then "M"%string
               else "H"%string) s in
          (mkBoard (set_cell (grid b) row col v) (winTarget b), s)
      | None => (b, s)
      end
  end.

(** The constructor [Board(mode)]. *)
Definition Board_init (mode : string) (s : Rng) : Board * Rng :=
  let g := fold_left (fun g i => fold_left (fun g j => set_cell g i j 0) indices g)
                     indices blank in
  let w := if String.eqb mode "E"%string then 256
           else if String.eqb mode "M"%string then 512 else 1024 in
  let '(b, s) := addRandomPiece (mkBoard g w) s in
  addRandomPiece b s.

Definition move (direction : ascii) (b : Board) (s : Rng) : bool * Board * Rng :=
  match direction_of direction with
  | None => (false, b, s)
  | Some d =>
      let '(g, moved) := slide d (grid b) in
      let b := mkBoard g (winTarget b) in
      if moved
      then let '(b, s) := addRandomPiece b s in (moved, b, s)
      else (moved, b, s)
  end.

(** Contract of the random source: a draw lies in the closed range. *)
Definition in_range : Prop :=
  forall lo hi s, lo <= hi ->
    lo <= fst (chooseRandomNumber lo hi s) <= hi.

End RandomSource.

Arguments getRandomStartingNumber {Rng}.
Arguments addRandomPiece {Rng}.
Arguments Board_init {Rng}.
Arguments move {Rng}.
Arguments in_range {Rng}.

(** A concrete random source for running the model: the state is a
    counter and a draw walks through the range. *)
Definition counterRng (lo hi : Z) (s : Z) : Z * Z :=
  (lo + s mod (hi - lo + 1), s + 1).

(** ** The slide-left primitive on one row

    What one iteration of the outer loop of [slidePiecesLeft] does to
    the row it works on, as functions of that row alone:
    [slidePiecesLeft_rows] below proves that the index-based loops
    compute exactly these on every row of a 4x4 grid. *)

Definition combine (r : list Z) : list Z * bool :=
  fold_left combine_step r ([], false).

Definition slideRow (r : list Z) : list Z := pad (fst (combine r)).

Fixpoint row_eqb (r1 r2 : list Z) : bool :=
  match r1, r2 with
  | [], [] => true
  | x :: t1, y :: t2 => (x =? y) && row_eqb t1 t2
  | _, _ => false
  end.

Definition rowMoved (r : list Z) : bool :=
  snd (combine r) || negb (row_eqb r (slideRow r)).

(** ** Vocabulary of the specification *)

Definition zsum (l : list Z) : Z := fold_right Z.add 0 l.

Definition nonzero (x : Z) : bool := negb (x =? 0).

(** A run of input tiles that ends up in one output tile: a first value
    [v], then values each equal to the sum of those before it, that is
    [v, v, 2v, 4v, ...]. *)
Inductive chain : list Z -> Prop :=
| chain_one v : v <> 0 -> chain [v]
| chain_snoc B : chain B -> chain (B ++ [zsum B]).

(** Runs are as long as they can be: a run never stops in front of a
    value that equals its sum. *)
Fixpoint greedy (bs : list (list Z)) : Prop :=
  match bs with
  | B1 :: ((B2 :: _) as rest) => hd 0 B2 <> zsum B1 /\ greedy rest
  | _ => True
  end.

(** The slide-left primitive as the specification words it: a value is
    collapsed into the previous emitted value only when that emitted
    value is not itself the product of a merge of this pass (the flag). *)
Definition once_step (st : list Z * bool) (x : Z) : list Z * bool :=
  let '(emitted, merged) := st in
  if negb (x =? 0) then
    if negb (empty emitted) && (back emitted =? x) && negb merged
    then (set_back emitted (back emitted * 2), true)
    else (push_back emitted x, false)
  else (emitted, merged).

Definition slideRow_once (r : list Z) : list Z :=
  pad (fst (fold_left once_step r ([], false))).

(** Two equal non-zero neighbours in a row / in a column. *)
Definition pair_in_row (g : Grid) : Prop :=
  exists i j, (i < 4)%nat /\ (j < 3)%nat /\
    cell g i j <> 0 /\ cell g i j = cell g i (j + 1).

Definition pair_in_column (g : Grid) : Prop :=
  exists i j, (i < 3)%nat /\ (j < 4)%nat /\
    cell g i j <> 0 /\ cell g i j = cell g (i + 1) j.

Definition pair_along (d : Direction) (g : Grid) : Prop :=
  match d with
  | DLeft | DRight => pair_in_row g
  | DUp | DDown => pair_in_column g
  end.

Definition adjacent_pair (r : list Z) : bool :=
  match r with
  | [w; x; y; z] =>
      (negb (w =? 0) && (w =? x)) || (negb (x =? 0) && (x =? y))
      || (negb (y =? 0) && (y =? z))
  | _ => false
  end.

(** A row no slide along it can change: empty, or full without equal
    neighbours. *)
Definition row_stuck (a b c d : Z) : bool :=
  ((a =? 0) && (b =? 0) && (c =? 0) && (d =? 0))
  || (negb (a =? 0) && negb (b =? 0) && negb (c =? 0) && negb (d =? 0)
      && negb (a =? b) && negb (b =? c) && negb (c =? d)).

(** Every row and every column is one no slide along it can change. *)
Definition lines_stuck (g : Grid) : bool :=
  forallb (fun i => row_stuck (cell g i 0) (cell g i 1) (cell g i 2) (cell g i 3))
          indices
  && forallb (fun j => row_stuck (cell g 0 j) (cell g 1 j) (cell g 2 j) (cell g 3 j))
             indices.

(** Some cell of the 4x4 array satisfies [P]. *)
Definition some_cell (P : Z -> Prop) (g : Grid) : Prop :=
  exists i j, (i < 4)%nat /\ (j < 4)%nat /\ P (cell g i j).

Definition has_tile (g : Grid) : Prop := some_cell (fun v => v <> 0) g.

Definition has_empty (g : Grid) : Prop := some_cell (fun v => v = 0) g.

(** The sixteen positions, and the number of non-empty cells. *)
Definition positions : list (nat * nat) := list_prod indices indices.

Definition occupied (g : Grid) (p : nat * nat) : bool :=
  negb (cell g (fst p) (snd p) =? 0).

Definition tiles (g : Grid) : nat := length (filter (occupied g) positions).

(** ** The data-model invariant *)

Definition pow2 (v : Z) : Prop := exists k, 1 <= k /\ v = 2 ^ k.

Definition cell_ok (v : Z) : Prop := v = 0 \/ pow2 v.

Definition grid_ok (g : Grid) : Prop :=
  forall i j, (i < 4)%nat -> (j < 4)%nat -> cell_ok (cell g i j).

Definition target_of (mode : string) : Z :=
  if String.eqb mode "E"%string then 256
  else if String.eqb mode "M"%string then 512 else 1024.

Definition board_inv (b : Board) : Prop :=
  wf_grid (grid b) = true /\ grid_ok (grid b) /\
  (winTarget b = 256 \/ winTarget b = 512 \/ winTarget b = 1024).

(** The boards a game started with [mode] can pass through, whatever
    the random source draws and whatever characters are played. *)
Inductive reachable {Rng : Type} (choose : Z -> Z -> Rng -> Z * Rng)
    (mode : string) : Board -> Prop :=
| reach_init s : reachable choose mode (fst (Board_init choose mode s))
| reach_move b c s :
    reachable choose mode b ->
    reachable choose mode (snd (fst (move choose c b s))).

(** The frame in which a direction is a slide to the left, and the way
    back. *)
Definition to_frame (d : Direction) (g : Grid) : Grid :=
  match d with
  | DLeft => g
  | DRight => rotateBoard true (rotateBoard true g)
  | DUp => rotateBoard true g
  | DDown => rotateBoard false g
  end.

Definition from_frame (d : Direction) (g : Grid) : Grid :=
  match d with
  | DLeft => g
  | DRight => rotateBoard true (rotateBoard true g)
  | DUp => rotateBoard false g
  | DDown => rotateBoard true g
  end.

(** The value a draw [r] from [1,10] spawns under win target [w]. *)
Definition spawn_value (w r : Z) : Z :=
  if w =? 256 then (if r <=? 5 then 2 else 4)
  else if w =? 512 then (if r <=? 7 then 2 else 4)
  else (if r <=? 9 then 2 else 4).

(** ** How large a cell can get

    The model computes in [Z]; the code computes in [int].  The two
    agree as long as no doubling passes 2^31 - 1, and the sum of the
    grid bounds every cell: [played_bound] below. *)

Definition grid_sum (g : Grid) : Z := zsum (map zsum g).

(** Boards after exactly [n] calls of [move]. *)
Inductive played {Rng : Type} (choose : Z -> Z -> Rng -> Z * Rng)
    (mode : string) : nat -> Board -> Prop :=
| played_init s : played choose mode 0 (fst (Board_init choose mode s))
| played_move n b c s :
    played choose mode n b ->
    played choose mode (S n) (snd (fst (move choose c b s))).

(** ** Concrete inputs used to run the theorems *)

Definition sample_grid : Grid :=
  [[2; 2; 0; 0]; [0; 4; 0; 0]; [0; 0; 8; 0]; [0; 0; 0; 0]].

Definition sample_board : Board := mkBoard sample_grid 256.

Definition count_grid : Grid :=
  [[1; 2; 3; 4]; [5; 6; 7; 8]; [9; 10; 11; 12]; [13; 14; 15; 16]].

Definition full_grid : Grid :=
  [[2; 4; 2; 4]; [4; 2; 4; 2]; [2; 4; 2; 4]; [4; 2; 4; 2]].

Definition twos_grid : Grid :=
  [[2; 2; 2; 2]; [0; 0; 0; 0]; [0; 0; 0; 0]; [0; 0; 0; 0]].

Definition cascade_grid : Grid :=
  [[2; 2; 4; 0]; [0; 0; 0; 0]; [0; 0; 0; 0]; [0; 0; 0; 0]].

(** ** Rows, columns and gaps *)

(** Column [j], read from the top. *)
Definition column (g : Grid) (j : nat) : list Z := map (fun r => nth j r 0) g.

(** No tile has an empty cell between itself and the edge the
    direction points to. *)
Definition flush (d : Direction) (g : Grid) : Prop :=
  match d with
  | DLeft => forall i j, (i < 4)%nat -> (j < 3)%nat ->
      cell g i j = 0 -> cell g i (j + 1) = 0
  | DRight => forall i j, (i < 4)%nat -> (j < 3)%nat ->
      cell g i (j + 1) = 0 -> cell g i j = 0
  | DUp => forall i j, (i < 3)%nat -> (j < 4)%nat ->
      cell g i j = 0 -> cell g (i + 1) j = 0
  | DDown => forall i j, (i < 3)%nat -> (j < 4)%nat ->
      cell g (i + 1) j = 0 -> cell g i j = 0
  end.

Definition compact_row (r : list Z) : bool :=
  match r with
  | [w; x; y; z] =>
      (negb (w =? 0) || (x =? 0)) && (negb (x =? 0) || (y =? 0))
      && (negb (y =? 0) || (z =? 0))
  | _ => false
  end.

(** Every cell of the 4x4 array satisfies [P]. *)
Definition all_cells (P : Z -> Prop) (g : Grid) : Prop :=
  forall i j, (i < 4)%nat -> (j < 4)%nat -> P (cell g i j).

(** 1 for a tile, 0 for an empty cell. *)
Definition tile_count (v : Z) : nat := if v =? 0 then 0%nat else 1%nat.

(** ** display

    What [display] sends to [std::cout], line by line.  An [int] is
    printed in decimal; [std::setw(4)] right-aligns it in a field of
    four characters and never cuts a longer number. *)

Definition nl : string := String (ascii_of_nat 10) EmptyString.

Definition show_int (v : Z) : string := NilZero.string_of_int (Z.to_int v).

Fixpoint spaces (n : nat) : string :=
  match n with
  | O => EmptyString
  | S n' => String " " (spaces n')
  end.

Definition setw (w : nat) (s : string) : string :=
  String.append (spaces (w - String.length s)) s.

Definition border : string := "---------------------".

Definition display_cell (v : Z) : string :=
  if v =? 0 then "    |"%string
  else String.append (setw 4 (show_int v)) "|".

Definition display_row (g : Grid) (i : nat) : string :=
  fold_left (fun line j => String.append line (display_cell (cell g i j)))
            indices "|"%string.

Definition display_lines (g : Grid) : list string :=
  fold_left (fun ls i => ls ++ [display_row g i; border]) indices [border].

Definition display (g : Grid) : string :=
  String.concat "" (map (fun l => String.append l nl) (display_lines g)).

(** ** main

    The driver, from the prompt for the seed on.  The words typed by
    the player are a list; [std::cin >> randSeed] has already turned the
    first one into the integer [randSeed], and [seed] is the parameter
    that sets the generator.  Everything printed is collected in order.
    When the words run out the program is still inside a loop, waiting:
    [Starved]. *)

Definition seed_prompt : string := "Enter random seed: ".
Definition mode_prompt : string :=
  "Choose game mode: Easy (E), Medium (M), or Hard (H): ".
Definition mode_error : string := String.append "Error: Invalid mode." nl.
Definition move_prompt : string := "Enter move: U, D, L, or R. Q to quit: ".
Definition move_error : string := String.append "Error: Invalid move." nl.
Definition blocked_msg : string := String.append "Invalid move direction." nl.
Definition win_msg : string := String.append "You win!" nl.
Definition lose_msg : string := String.append "You lose." nl.

(** [mode != "E" && mode != "M" && mode != "H"] *)
Definition invalid_mode (mode : string) : bool :=
  negb (String.eqb mode "E") && negb (String.eqb mode "M")
  && negb (String.eqb mode "H").

(** The [do ... while] that asks for the mode. *)
Fixpoint read_mode (inputs : list string) (out : list string)
    : option (string * list string) * list string :=
  match inputs with
  | [] => (None, out ++ [mode_prompt])
  | mode :: rest =>
      if invalid_mode mode
      then read_mode rest (out ++ [mode_prompt; mode_error])
      else (Some (mode, rest), out ++ [mode_prompt])
  end.

(** [move[0]] *)
Definition first_char (mv : string) : ascii :=
  match mv with
  | String c _ => c
  | EmptyString => zero
  end.

(** The test that prints "Error: Invalid move." *)
Definition invalid_move (mv : string) : bool :=
  negb (Nat.eqb (String.length mv) 1)
  || (negb (Ascii.eqb (first_char mv) "U") && negb (Ascii.eqb (first_char mv) "u")
      && negb (Ascii.eqb (first_char mv) "D") && negb (Ascii.eqb (first_char mv) "d")
      && negb (Ascii.eqb (first_char mv) "L") && negb (Ascii.eqb (first_char mv) "l")
      && negb (Ascii.eqb (first_char mv) "R") && negb (Ascii.eqb (first_char mv) "r")).

Definition quit_word (mv : string) : bool :=
  String.eqb mv "Q" || String.eqb mv "q".

Inductive LoopResult (Rng : Type) : Type :=
| LoopExit (b : Board) (s : Rng) (out : list string)
| LoopStarved (b : Board) (s : Rng) (out : list string).

Arguments LoopExit {Rng}.
Arguments LoopStarved {Rng}.

Inductive Run (Rng : Type) : Type :=
| Exited (b : Board) (s : Rng) (out : list string)
| Starved (out : list string).

Arguments Exited {Rng}.
Arguments Starved {Rng}.

Section Driver.

Variable Rng : Type.
Variable chooseRandomNumber : Z -> Z -> Rng -> Z * Rng.
Variable seed : Z -> Rng.

(** The [while (!gameBoard.isGameOver())] loop. *)
Fixpoint game_loop (inputs : list string) (b : Board) (s : Rng)
    (out : list string) : LoopResult Rng :=
  if isGameOver (grid b) then LoopExit b s out
  else
    match inputs with
    | [] => LoopStarved b s (out ++ [display (grid b); move_prompt])
    | mv :: rest =>
        let out := out ++ [display (grid b); move_prompt] in
        if quit_word mv then LoopExit b s out
        else if invalid_move mv then game_loop rest b s (out ++ [move_error])
        else
          let '(moved, b, s) := move chooseRandomNumber (first_char mv) b s in
          if negb moved then game_loop rest b s (out ++ [blocked_msg])
          else if checkWin b
               then LoopExit b s (out ++ [display (grid b); win_msg])
               else game_loop rest b s out
    end.

Definition main (randSeed : Z) (inputs : list string) : Run Rng :=
  let s := seed randSeed in
  match read_mode inputs [seed_prompt] with
  | (None, out) => Starved out
  | (Some (mode, rest), out) =>
      let '(gameBoard, s) := Board_init chooseRandomNumber mode s in
      match game_loop rest gameBoard s out with
      | LoopStarved _ _ out => Starved out
      | LoopExit b s out =>
          if isGameOver (grid b)
          then Exited b s (out ++ [display (grid b); lose_msg])
          else Exited b s out
      end
  end.

End Driver.

Arguments game_loop {Rng}.
Arguments main {Rng}.

(** Where a loop stands, apart from what it printed. *)
Definition loop_state {Rng : Type} (r : LoopResult Rng) : bool * Board * Rng :=
  match r with
  | LoopExit b s _ => (true, b, s)
  | LoopStarved b s _ => (false, b, s)
  end.

Definition loop_out {Rng : Type} (r : LoopResult Rng) : list string :=
  match r with
  | LoopExit _ _ out => out
  | LoopStarved _ _ out => out
  end.

(* ================================================================= *)
(** * Proofs *)

(** ** Lists and 4x4 grids *)

Lemma row_eqb_eq r1 r2 : row_eqb r1 r2 = true <-> r1 = r2.
Proof.
  revert r2; induction r1 as [|x t IH]; intros [|y t2]; simpl;
    try (split; [discriminate | congruence]); try tauto.
  rewrite andb_true_iff, Z.eqb_eq, IH. split.
  - intros [-> ->]; reflexivity.
  - intros H; injection H; auto.
Qed.

Lemma wf_row_inv r :
  wf_row r = true -> exists a b c d, r = [a; b; c; d].
Proof.
  unfold wf_row; intros H; apply Nat.eqb_eq in H.
  destruct r as [|a [|b [|c [|d [|e t]]]]]; try discriminate.
  now exists a, b, c, d.
Qed.

Lemma wf_grid_inv g :
  wf_grid g = true ->
  exists r0 r1 r2 r3, g = [r0; r1; r2; r3] /\
    wf_row r0 = true /\ wf_row r1 = true /\ wf_row r2 = true /\ wf_row r3 = true.
Proof.
  unfold wf_grid; intros H; apply andb_true_iff in H as [Hl Hr].
  apply Nat.eqb_eq in Hl.
  destruct g as [|r0 [|r1 [|r2 [|r3 [|r4 t]]]]]; try discriminate.
  simpl in Hr. repeat (apply andb_true_iff in Hr as [? Hr]).
  exists r0, r1, r2, r3; auto.
Qed.

(** Name the sixteen cells of a well-formed grid. *)
Ltac grid_cells g H :=
  let r0 := fresh "r" in let r1 := fresh "r" in
  let r2 := fresh "r" in let r3 := fresh "r" in
  let E := fresh "E" in
  let H0 := fresh "W" in let H1 := fresh "W" in
  let H2 := fresh "W" in let H3 := fresh "W" in
  destruct (wf_grid_inv g H) as (r0 & r1 & r2 & r3 & E & H0 & H1 & H2 & H3);
  destruct (wf_row_inv _ H0) as (? & ? & ? & ? & ->);
  destruct (wf_row_inv _ H1) as (? & ? & ? & ? & ->);
  destruct (wf_row_inv _ H2) as (? & ? & ? & ? & ->);
  destruct (wf_row_inv _ H3) as (? & ? & ? & ? & ->);
  clear H0 H1 H2 H3; subst g.

Lemma lt4 (i : nat) : (i < 4)%nat -> i = 0%nat \/ i = 1%nat \/ i = 2%nat \/ i = 3%nat.
Proof. lia. Qed.

Ltac index4 i H :=
  destruct (lt4 i H) as [-> | [-> | [-> | ->]]].

(** ** The loops of [slidePiecesLeft] row by row *)

Lemma combine_step_moved r : forall acc m,
  fold_left combine_step r (acc, m) =
  (fst (fold_left combine_step r (acc, false)),
   m || snd (fold_left combine_step r (acc, false))).
Proof.
  induction r as [|x t IH]; intros acc m; simpl.
  - now rewrite orb_false_r.
  - destruct (negb (x =? 0)); [|apply IH].
    destruct (negb (empty acc) && (back acc =? x)).
    + rewrite (IH _ true). simpl. now rewrite orb_true_r.
    + apply IH.
Qed.

Lemma combine_length_le r : forall acc m,
  (length (fst (fold_left combine_step r (acc, m))) <= length acc + length r)%nat.
Proof.
  induction r as [|x t IH]; intros acc m; simpl; [lia|].
  destruct (negb (x =? 0)).
  - destruct (negb (empty acc) && (back acc =? x)) eqn:E.
    + specialize (IH (set_back acc (back acc * 2)) true).
      unfold set_back in IH. rewrite length_app in IH. simpl in IH.
      destruct acc as [|y acc']; [discriminate|].
      destruct (@exists_last _ (y :: acc')) as (l & z & El); [discriminate|].
      rewrite El in *. unfold set_back. rewrite removelast_last in *.
      rewrite length_app. simpl. lia.
    + specialize (IH (push_back acc x) m). unfold push_back in *.
      rewrite length_app in IH. simpl in IH. lia.
  - specialize (IH acc m). lia.
Qed.

Lemma pad_length nr :
  (length nr <= BOARD_SIZE)%nat -> length (pad nr) = BOARD_SIZE.
Proof.
  intros H. unfold pad. rewrite length_app, repeat_length. lia.
Qed.

Lemma slideRow_length r :
  (length r <= BOARD_SIZE)%nat -> length (slideRow r) = BOARD_SIZE.
Proof.
  intros H. apply pad_length. unfold combine.
  pose proof (combine_length_le r [] false). simpl in *. lia.
Qed.

Lemma slideRow_wf r : wf_row r = true -> wf_row (slideRow r) = true.
Proof.
  unfold wf_row. intros H. apply Nat.eqb_eq in H. apply Nat.eqb_eq.
  apply slideRow_length. lia.
Qed.

Lemma write_loop a b c d w x y z r0 r1 r2 r3 i m :
  (i < 4)%nat ->
  nth i [r0; r1; r2; r3] [] = [a; b; c; d] ->
  fold_left (write_step i [w; x; y; z]) indices ([r0; r1; r2; r3], m) =
  (update i [w; x; y; z] [r0; r1; r2; r3],
   m || negb (row_eqb [a; b; c; d] [w; x; y; z])).
Proof.
  intros Hi Hr. index4 i Hi; simpl in Hr; subst;
    unfold indices, write_step, cell, set_cell; simpl;
    destruct (Z.eqb_spec a w); simpl; subst;
    destruct (Z.eqb_spec b x); simpl; subst;
    destruct (Z.eqb_spec c y); simpl; subst;
    destruct (Z.eqb_spec d z); simpl; subst;
    rewrite ?orb_true_r, ?orb_false_r; reflexivity.
Qed.

Lemma slide_row_at_row r0 r1 r2 r3 i m :
  (i < 4)%nat ->
  wf_row (nth i [r0; r1; r2; r3] []) = true ->
  slide_row_at ([r0; r1; r2; r3], m) i =
  (update i (slideRow (nth i [r0; r1; r2; r3] [])) [r0; r1; r2; r3],
   m || rowMoved (nth i [r0; r1; r2; r3] [])).
Proof.
  intros Hi Hw.
  destruct (wf_row_inv _ Hw) as (a & b & c & d & E).
  pose proof (slideRow_wf _ Hw) as Hs.
  destruct (wf_row_inv _ Hs) as (w & x & y & z & Es).
  unfold slide_row_at.
  assert (Hc : fold_left (fun s col => combine_step s (cell [r0; r1; r2; r3] i col))
                 indices ([], m)
               = fold_left combine_step [a; b; c; d] ([], m)).
  { unfold cell. rewrite E. reflexivity. }
  rewrite Hc, combine_step_moved.
  unfold rowMoved. rewrite E in *. unfold slideRow, combine in *.
  rewrite Es.
  rewrite (write_loop a b c d w x y z r0 r1 r2 r3 i _ Hi E).
  now rewrite orb_assoc.
Qed.

Lemma slidePiecesLeft_rows g :
  wf_grid g = true ->
  slidePiecesLeft g = (map slideRow g, existsb rowMoved g).
Proof.
  intros H.
  destruct (wf_grid_inv g H) as (r0 & r1 & r2 & r3 & -> & W0 & W1 & W2 & W3).
  unfold slidePiecesLeft, indices, BOARD_SIZE. cbn [seq fold_left].
  rewrite (slide_row_at_row r0 r1 r2 r3 0) by (auto; lia). cbn [update nth].
  rewrite (slide_row_at_row _ r1 r2 r3 1) by (auto; lia). cbn [update nth].
  rewrite (slide_row_at_row _ _ r2 r3 2) by (auto; lia). cbn [update nth].
  rewrite (slide_row_at_row _ _ _ r3 3) by (auto; lia). cbn [update nth].
  cbn [map existsb orb]. now rewrite orb_false_r, !orb_assoc.
Qed.

(** ** Rotations on the sixteen cells *)

Lemma rotateBoard_ccw_cells a b c d e f g h i j k l m n o p :
  rotateBoard true [[a; b; c; d]; [e; f; g; h]; [i; j; k; l]; [m; n; o; p]] =
  [[d; h; l; p]; [c; g; k; o]; [b; f; j; n]; [a; e; i; m]].
Proof. reflexivity. Qed.

Lemma rotateBoard_cw_cells a b c d e f g h i j k l m n o p :
  rotateBoard false [[a; b; c; d]; [e; f; g; h]; [i; j; k; l]; [m; n; o; p]] =
  [[m; i; e; a]; [n; j; f; b]; [o; k; g; c]; [p; l; h; d]].
Proof. reflexivity. Qed.

Lemma rotateBoard_wf ccw g :
  wf_grid g = true -> wf_grid (rotateBoard ccw g) = true.
Proof. intros H. grid_cells g H. destruct ccw; reflexivity. Qed.

Lemma rotate_cw_ccw g :
  wf_grid g = true -> rotateBoard false (rotateBoard true g) = g.
Proof. intros H. grid_cells g H. reflexivity. Qed.

Lemma rotate_ccw_cw g :
  wf_grid g = true -> rotateBoard true (rotateBoard false g) = g.
Proof. intros H. grid_cells g H. reflexivity. Qed.

Lemma rotate_ccw_four g :
  wf_grid g = true ->
  rotateBoard true (rotateBoard true (rotateBoard true (rotateBoard true g))) = g.
Proof. intros H. grid_cells g H. reflexivity. Qed.

Lemma rotate_cw_four g :
  wf_grid g = true ->
  rotateBoard false (rotateBoard false (rotateBoard false (rotateBoard false g))) = g.
Proof. intros H. grid_cells g H. reflexivity. Qed.

Lemma cell_rotate_ccw g i j :
  wf_grid g = true -> (i < 4)%nat -> (j < 4)%nat ->
  cell (rotateBoard true g) i j = cell g j (3 - i).
Proof.
  intros H Hi Hj. grid_cells g H. index4 i Hi; index4 j Hj; reflexivity.
Qed.

Lemma cell_rotate_cw g i j :
  wf_grid g = true -> (i < 4)%nat -> (j < 4)%nat ->
  cell (rotateBoard false g) i j = cell g (3 - j) i.
Proof.
  intros H Hi Hj. grid_cells g H. index4 i Hi; index4 j Hj; reflexivity.
Qed.

(** ** Grids after a slide *)

Lemma map_slideRow_wf g : wf_grid g = true -> wf_grid (map slideRow g) = true.
Proof.
  intros H.
  destruct (wf_grid_inv g H) as (r0 & r1 & r2 & r3 & -> & W0 & W1 & W2 & W3).
  unfold wf_grid. simpl. now rewrite !slideRow_wf.
Qed.

Lemma slidePiecesRight_rows g :
  wf_grid g = true ->
  slidePiecesRight g =
  (rotateBoard true (rotateBoard true
     (map slideRow (rotateBoard true (rotateBoard true g)))),
   existsb rowMoved (rotateBoard true (rotateBoard true g))).
Proof.
  intros H. unfold slidePiecesRight.
  now rewrite slidePiecesLeft_rows by (now apply rotateBoard_wf, rotateBoard_wf).
Qed.

Lemma slidePiecesUp_rows g :
  wf_grid g = true ->
  slidePiecesUp g =
  (rotateBoard false (map slideRow (rotateBoard true g)),
   existsb rowMoved (rotateBoard true g)).
Proof.
  intros H. unfold slidePiecesUp.
  now rewrite slidePiecesLeft_rows by (now apply rotateBoard_wf).
Qed.

Lemma slidePiecesDown_rows g :
  wf_grid g = true ->
  slidePiecesDown g =
  (rotateBoard true (map slideRow (rotateBoard false g)),
   existsb rowMoved (rotateBoard false g)).
Proof.
  intros H. unfold slidePiecesDown.
  now rewrite slidePiecesLeft_rows by (now apply rotateBoard_wf).
Qed.

Lemma to_frame_wf d g : wf_grid g = true -> wf_grid (to_frame d g) = true.
Proof. intros H. destruct d; simpl; auto using rotateBoard_wf. Qed.

Lemma from_frame_wf d g : wf_grid g = true -> wf_grid (from_frame d g) = true.
Proof. intros H. destruct d; simpl; auto using rotateBoard_wf. Qed.

Lemma from_to_frame d g : wf_grid g = true -> from_frame d (to_frame d g) = g.
Proof.
  intros H. destruct d; simpl; auto using rotate_cw_ccw, rotate_ccw_cw, rotate_ccw_four.
Qed.

Lemma to_from_frame d g : wf_grid g = true -> to_frame d (from_frame d g) = g.
Proof.
  intros H. destruct d; simpl; auto using rotate_cw_ccw, rotate_ccw_cw, rotate_ccw_four.
Qed.

Lemma slide_frame d g :
  wf_grid g = true ->
  slide d g = (from_frame d (map slideRow (to_frame d g)),
               existsb rowMoved (to_frame d g)).
Proof.
  intros H. destruct d; simpl.
  - now apply slidePiecesLeft_rows.
  - now apply slidePiecesRight_rows.
  - now apply slidePiecesUp_rows.
  - now apply slidePiecesDown_rows.
Qed.

Lemma slide_wf d g : wf_grid g = true -> wf_grid (fst (slide d g)) = true.
Proof.
  intros H. rewrite slide_frame by assumption. simpl.
  now apply from_frame_wf, map_slideRow_wf, to_frame_wf.
Qed.

(** ** Brute force over the four cells of a row *)

Ltac zcases :=
  repeat match goal with
         | |- context [Z.eqb ?x ?y] => destruct (Z.eqb_spec x y); simpl
         end.

Ltac row_unfold :=
  unfold rowMoved, slideRow, combine, pad, combine_step, push_back, set_back,
    back, empty, BOARD_SIZE; simpl.

Lemma rowMoved_changed a b c d :
  rowMoved [a; b; c; d] = negb (row_eqb [a; b; c; d] (slideRow [a; b; c; d])).
Proof. row_unfold; zcases; try reflexivity; exfalso; lia. Qed.

Lemma rowMoved_last_empty a b c d :
  rowMoved [a; b; c; d] = true -> nth 3 (slideRow [a; b; c; d]) 0 = 0.
Proof.
  row_unfold; zcases; intros; try reflexivity; try discriminate; exfalso; lia.
Qed.

Lemma rowMoved_again a b c d :
  rowMoved (slideRow [a; b; c; d]) = adjacent_pair (slideRow [a; b; c; d]).
Proof.
  unfold adjacent_pair. row_unfold; zcases; try reflexivity; exfalso; lia.
Qed.

Lemma rowMoved_both_ways a b c d :
  rowMoved [a; b; c; d] || rowMoved [d; c; b; a] = negb (row_stuck a b c d).
Proof.
  unfold row_stuck. row_unfold; zcases; try reflexivity; exfalso; lia.
Qed.

(** ** A slide reports a change exactly when the grid changes *)

Lemma rowMoved_false_iff r :
  wf_row r = true -> (rowMoved r = false <-> slideRow r = r).
Proof.
  intros H. destruct (wf_row_inv r H) as (a & b & c & d & ->).
  rewrite rowMoved_changed, negb_false_iff, row_eqb_eq.
  split; intros E; symmetry; exact E.
Qed.

Lemma rows_moved_false_iff g :
  wf_grid g = true -> (existsb rowMoved g = false <-> map slideRow g = g).
Proof.
  intros H.
  destruct (wf_grid_inv g H) as (r0 & r1 & r2 & r3 & -> & W0 & W1 & W2 & W3).
  simpl. rewrite !orb_false_iff.
  rewrite !rowMoved_false_iff by assumption.
  split.
  - intros (-> & -> & -> & -> & _). reflexivity.
  - intros E. injection E. auto.
Qed.

Lemma from_frame_eq d x g :
  wf_grid x = true -> wf_grid g = true ->
  (from_frame d x = g <-> x = to_frame d g).
Proof.
  intros Hx Hg. split; intros E.
  - rewrite <- E. symmetry. now apply to_from_frame.
  - rewrite E. now apply from_to_frame.
Qed.

Lemma slide_unmoved_iff d g :
  wf_grid g = true -> (snd (slide d g) = false <-> fst (slide d g) = g).
Proof.
  intros H. rewrite slide_frame by assumption. simpl.
  rewrite rows_moved_false_iff by (now apply to_frame_wf).
  rewrite from_frame_eq; [reflexivity | | assumption].
  now apply map_slideRow_wf, to_frame_wf.
Qed.

Lemma slide_moved_iff d g :
  wf_grid g = true -> (snd (slide d g) = true <-> fst (slide d g) <> g).
Proof.
  intros H. rewrite <- slide_unmoved_iff by assumption.
  destruct (snd (slide d g)); split; congruence.
Qed.

(** ** Properties of cells carried through rotations *)

Lemma some_cell_rotate P ccw g :
  wf_grid g = true -> some_cell P g -> some_cell P (rotateBoard ccw g).
Proof.
  intros H (i & j & Hi & Hj & E). destruct ccw.
  - exists (3 - j)%nat, i. repeat split; try lia.
    rewrite cell_rotate_ccw by (auto; lia).
    now replace (3 - (3 - j))%nat with j by lia.
  - exists j, (3 - i)%nat. repeat split; try lia.
    rewrite cell_rotate_cw by (auto; lia).
    now replace (3 - (3 - i))%nat with i by lia.
Qed.

Lemma some_cell_from_frame P d g :
  wf_grid g = true -> some_cell P g -> some_cell P (from_frame d g).
Proof.
  intros H E. destruct d; simpl; auto using some_cell_rotate, rotateBoard_wf.
Qed.

Lemma some_cell_to_frame P d g :
  wf_grid g = true -> some_cell P g -> some_cell P (to_frame d g).
Proof.
  intros H E. destruct d; simpl; auto using some_cell_rotate, rotateBoard_wf.
Qed.

Lemma rows_moved_has_empty g :
  wf_grid g = true -> existsb rowMoved g = true -> has_empty (map slideRow g).
Proof.
  intros H E. apply existsb_exists in E as (r & Hin & Hr).
  destruct (wf_grid_inv g H) as (r0 & r1 & r2 & r3 & -> & W0 & W1 & W2 & W3).
  assert (Hw : wf_row r = true)
    by (simpl in Hin; destruct Hin as [<-|[<-|[<-|[<-|[]]]]]; assumption).
  destruct (wf_row_inv r Hw) as (a & b & c & d & ->).
  apply rowMoved_last_empty in Hr.
  simpl in Hin. destruct Hin as [->|[->|[->|[->|[]]]]].
  - exists 0%nat, 3%nat. repeat split; try lia. exact Hr.
  - exists 1%nat, 3%nat. repeat split; try lia. exact Hr.
  - exists 2%nat, 3%nat. repeat split; try lia. exact Hr.
  - exists 3%nat, 3%nat. repeat split; try lia. exact Hr.
Qed.

Lemma slide_moved_has_empty d g :
  wf_grid g = true -> snd (slide d g) = true -> has_empty (fst (slide d g)).
Proof.
  intros H. rewrite slide_frame by assumption. simpl. intros E.
  apply some_cell_from_frame.
  - now apply map_slideRow_wf, to_frame_wf.
  - apply rows_moved_has_empty; [now apply to_frame_wf | assumption].
Qed.

(** ** Writing one cell *)

Lemma set_cell_wf g i j v :
  wf_grid g = true -> (i < 4)%nat -> (j < 4)%nat ->
  wf_grid (set_cell g i j v) = true.
Proof.
  intros H Hi Hj. grid_cells g H. index4 i Hi; index4 j Hj; reflexivity.
Qed.

Lemma cell_set_cell_same g i j v :
  wf_grid g = true -> (i < 4)%nat -> (j < 4)%nat ->
  cell (set_cell g i j v) i j = v.
Proof.
  intros H Hi Hj. grid_cells g H. index4 i Hi; index4 j Hj; reflexivity.
Qed.

Lemma cell_set_cell_other g i j v i' j' :
  wf_grid g = true -> (i < 4)%nat -> (j < 4)%nat ->
  (i' < 4)%nat -> (j' < 4)%nat -> (i', j') <> (i, j) ->
  cell (set_cell g i j v) i' j' = cell g i' j'.
Proof.
  intros H Hi Hj Hi' Hj' N. grid_cells g H.
  index4 i Hi; index4 j Hj; index4 i' Hi'; index4 j' Hj';
    solve [reflexivity | exfalso; apply N; reflexivity].
Qed.

(** ** The scan for empty squares *)

Lemma fold_left_collect {A B : Type} (p : A -> bool) (f : A -> B) l : forall acc,
  fold_left (fun acc x => if p x then acc ++ [f x] else acc) l acc =
  acc ++ map f (filter p l).
Proof.
  induction l as [|x t IH]; intros acc; simpl.
  - now rewrite app_nil_r.
  - rewrite IH. destruct (p x); simpl; [now rewrite <- app_assoc | reflexivity].
Qed.

Lemma scan_rows (P : nat -> nat -> bool) (cols rows : list nat) : forall acc,
  fold_left
    (fun acc i =>
       fold_left (fun acc j => if P i j then acc ++ [(i, j)] else acc) cols acc)
    rows acc =
  acc ++ concat (map (fun i => map (fun j => (i, j)) (filter (P i) cols)) rows).
Proof.
  induction rows as [|i t IH]; intros acc; simpl.
  - now rewrite app_nil_r.
  - rewrite (fold_left_collect (P i) (fun j => (i, j))), IH.
    now rewrite <- app_assoc.
Qed.

Lemma emptySquares_scan g :
  emptySquares g =
  concat (map (fun i => map (fun j => (i, j))
                          (filter (fun j => cell g i j =? 0) indices)) indices).
Proof.
  unfold emptySquares.
  now rewrite (scan_rows (fun i j => cell g i j =? 0)).
Qed.

Lemma In_indices i : In i indices <-> (i < 4)%nat.
Proof. unfold indices, BOARD_SIZE. rewrite in_seq. lia. Qed.

Lemma emptySquares_In g i j :
  In (i, j) (emptySquares g) <-> (i < 4)%nat /\ (j < 4)%nat /\ cell g i j = 0.
Proof.
  rewrite emptySquares_scan, in_concat. split.
  - intros (l & Hl & Hin). apply in_map_iff in Hl as (i' & <- & Hi').
    apply in_map_iff in Hin as (j' & E & Hj'). injection E as <- <-.
    apply filter_In in Hj' as (Hj' & Hz).
    apply In_indices in Hi', Hj'. apply Z.eqb_eq in Hz. auto.
  - intros (Hi & Hj & Hz).
    exists (map (fun j => (i, j)) (filter (fun j => cell g i j =? 0) indices)).
    split.
    + apply in_map_iff. exists i. split; [reflexivity | now apply In_indices].
    + apply in_map_iff. exists j. split; [reflexivity|].
      apply filter_In. split; [now apply In_indices | now apply Z.eqb_eq].
Qed.

Lemma emptySquares_nil g : emptySquares g = [] <-> ~ has_empty g.
Proof.
  split.
  - intros E (i & j & Hi & Hj & Hz).
    assert (In (i, j) (emptySquares g)) by (apply emptySquares_In; auto).
    rewrite E in *. contradiction.
  - intros N. destruct (emptySquares g) as [|[i j] t] eqn:E; [reflexivity|].
    exfalso. apply N. exists i, j. apply emptySquares_In. rewrite E. now left.
Qed.

(** ** One spawn *)

Section Spawn.

Context {Rng : Type} (choose : Z -> Z -> Rng -> Z * Rng).
Hypothesis contract : in_range choose.

Lemma getRandomStartingNumber_value w s :
  getRandomStartingNumber choose
    (if w =? 256 then "E"%string else if w =? 512 then "M"%string else "H"%string) s
  = (spawn_value w (fst (choose 1 10 s)), snd (choose 1 10 s)).
Proof.
  unfold getRandomStartingNumber, spawn_value.
  destruct (choose 1 10 s) as [r s']. simpl.
  destruct (w =? 256); [reflexivity|]. destruct (w =? 512); reflexivity.
Qed.

Lemma spawn_value_2_or_4 w r : spawn_value w r = 2 \/ spawn_value w r = 4.
Proof.
  unfold spawn_value.
  destruct (w =? 256); [destruct (r <=? 5); auto|].
  destruct (w =? 512); [destruct (r <=? 7); auto|].
  destruct (r <=? 9); auto.
Qed.

(** With at least one empty square the spawn draws an index, then a
    value, and writes that value into the square drawn. *)
Lemma addRandomPiece_spawn b s :
  emptySquares (grid b) <> [] ->
  let es := emptySquares (grid b) in
  let k := fst (choose 0 (Z.of_nat (length es) - 1) s) in
  let s1 := snd (choose 0 (Z.of_nat (length es) - 1) s) in
  let r := fst (choose 1 10 s1) in
  let s2 := snd (choose 1 10 s1) in
  0 <= k <= Z.of_nat (length es) - 1 /\
  exists i j,
    nth_error es (Z.to_nat k) = Some (i, j) /\
    addRandomPiece choose b s =
    (mkBoard (set_cell (grid b) i j (spawn_value (winTarget b) r)) (winTarget b), s2).
Proof.
  intros Hne. cbv zeta.
  remember (emptySquares (grid b)) as es eqn:Ees.
  remember (choose 0 (Z.of_nat (length es) - 1) s) as c eqn:Ec.
  assert (Hlen : (0 < length es)%nat).
  { destruct es; [contradiction | simpl; lia]. }
  assert (Hk : 0 <= fst c <= Z.of_nat (length es) - 1)
    by (rewrite Ec; apply contract; lia).
  split; [exact Hk|].
  destruct (nth_error es (Z.to_nat (fst c))) as [[i j]|] eqn:En;
    [|apply nth_error_None in En; lia].
  exists i, j. split; [reflexivity|].
  unfold addRandomPiece. cbv zeta. rewrite <- Ees.
  destruct es as [|e t]; [contradiction|].
  cbv iota beta. rewrite <- Ec. destruct c as [k' s'].
  cbn [fst snd] in *. rewrite En, getRandomStartingNumber_value.
  reflexivity.
Qed.

Lemma addRandomPiece_full b s :
  emptySquares (grid b) = [] -> addRandomPiece choose b s = (b, s).
Proof. intros E. unfold addRandomPiece. now rewrite E. Qed.

(** What every caller needs: the spawn fills one empty cell with a 2
    or a 4, or finds the grid full. *)
Lemma addRandomPiece_cases b s :
  (~ has_empty (grid b) /\ addRandomPiece choose b s = (b, s)) \/
  (exists i j v, (i < 4)%nat /\ (j < 4)%nat /\ cell (grid b) i j = 0 /\
     (v = 2 \/ v = 4) /\
     fst (addRandomPiece choose b s) =
     mkBoard (set_cell (grid b) i j v) (winTarget b)).
Proof.
  destruct (emptySquares (grid b)) as [|e t] eqn:E.
  - left. split; [now apply emptySquares_nil | now apply addRandomPiece_full].
  - right.
    destruct (addRandomPiece_spawn b s) as (_ & i & j & Hn & Ha);
      [rewrite E; discriminate|].
    apply nth_error_In, emptySquares_In in Hn as (Hi & Hj & Hz).
    exists i, j, (spawn_value (winTarget b)
                    (fst (choose 1 10
                       (snd (choose 0 (Z.of_nat (length (emptySquares (grid b))) - 1) s))))).
    repeat split; auto using spawn_value_2_or_4.
    now rewrite Ha.
Qed.

End Spawn.

(** ** The counter random source honours the contract *)

Lemma counterRng_in_range : in_range counterRng.
Proof.
  intros lo hi s H. unfold counterRng. simpl.
  pose proof (Z.mod_pos_bound s (hi - lo + 1)). lia.
Qed.

(** ** Counting tiles *)

Lemma filter_flip {A : Type} (p q : A -> bool) (x0 : A) (l : list A) :
  NoDup l -> In x0 l -> p x0 = false -> q x0 = true ->
  (forall x, x <> x0 -> q x = p x) ->
  length (filter q l) = S (length (filter p l)).
Proof.
  intros Hnd Hin Hp Hq Hext. induction l as [|x t IH]; [contradiction|].
  inversion Hnd as [|? ? Hnotin Hnd']; subst.
  destruct Hin as [-> | Hin].
  - simpl. rewrite Hp, Hq. simpl. f_equal. f_equal.
    apply filter_ext_in. intros y Hy. apply Hext. congruence.
  - assert (x <> x0) by congruence.
    simpl. rewrite (Hext x) by assumption.
    destruct (p x); simpl; now rewrite IH.
Qed.

Lemma positions_NoDup : NoDup positions.
Proof.
  unfold positions, indices, BOARD_SIZE. simpl.
  repeat (constructor; [simpl; intuition discriminate|]). constructor.
Qed.

Lemma positions_In i j : In (i, j) positions <-> (i < 4)%nat /\ (j < 4)%nat.
Proof. unfold positions. now rewrite in_prod_iff, !In_indices. Qed.

Lemma wf_grid_length g : wf_grid g = true -> length g = 4%nat.
Proof. intros H. grid_cells g H. reflexivity. Qed.

Lemma wf_grid_row_length g i :
  wf_grid g = true -> (i < 4)%nat -> length (nth i g []) = 4%nat.
Proof. intros H Hi. grid_cells g H. index4 i Hi; reflexivity. Qed.

Lemma cell_outside g i j :
  wf_grid g = true -> (4 <= i)%nat \/ (4 <= j)%nat -> cell g i j = 0.
Proof.
  intros H Ho. unfold cell.
  destruct (Nat.lt_ge_cases i 4) as [Hi|Hi].
  - apply nth_overflow. rewrite wf_grid_row_length by assumption. lia.
  - rewrite (nth_overflow g []) by (rewrite wf_grid_length by assumption; lia).
    now destruct j.
Qed.

Lemma tiles_set_cell g i j v :
  wf_grid g = true -> (i < 4)%nat -> (j < 4)%nat ->
  cell g i j = 0 -> v <> 0 ->
  tiles (set_cell g i j v) = S (tiles g).
Proof.
  intros H Hi Hj Hz Hv. unfold tiles.
  apply (filter_flip _ _ (i, j)).
  - apply positions_NoDup.
  - now apply positions_In.
  - unfold occupied. simpl. now rewrite Hz.
  - unfold occupied. simpl. rewrite cell_set_cell_same by assumption.
    now apply negb_true_iff, Z.eqb_neq.
  - intros [i' j'] N. unfold occupied. simpl.
    destruct (Nat.lt_ge_cases i' 4) as [Hi'|Hi'];
      [destruct (Nat.lt_ge_cases j' 4) as [Hj'|Hj']|].
    + now rewrite cell_set_cell_other.
    + rewrite !cell_outside; auto using set_cell_wf.
    + rewrite !cell_outside; auto using set_cell_wf.
Qed.

Lemma filter_list_prod (P : nat -> nat -> bool) (rows cols : list nat) :
  filter (fun p => P (fst p) (snd p)) (list_prod rows cols) =
  concat (map (fun i => map (fun j => (i, j)) (filter (P i) cols)) rows).
Proof.
  induction rows as [|i t IH]; [reflexivity|].
  simpl. rewrite filter_app, IH. f_equal.
  clear. induction cols as [|j t IH]; [reflexivity|].
  simpl. destruct (P i j); simpl; now rewrite IH.
Qed.

Lemma emptySquares_positions g :
  emptySquares g = filter (fun p => negb (occupied g p)) positions.
Proof.
  rewrite emptySquares_scan. unfold positions, occupied.
  rewrite <- (filter_list_prod (fun i j => cell g i j =? 0)).
  apply filter_ext. intros [i j]. simpl. now rewrite negb_involutive.
Qed.

Lemma tiles_emptySquares g : (tiles g + length (emptySquares g) = 16)%nat.
Proof.
  rewrite emptySquares_positions. unfold tiles.
  rewrite filter_length. reflexivity.
Qed.

(** ** [move], case by case *)

Section Move.

Context {Rng : Type} (choose : Z -> Z -> Rng -> Z * Rng).

Lemma move_unrecognised c b s :
  direction_of c = None -> move choose c b s = (false, b, s).
Proof. intros E. unfold move. now rewrite E. Qed.

Lemma move_unmoved c d b s :
  wf_grid (grid b) = true -> direction_of c = Some d ->
  snd (slide d (grid b)) = false -> move choose c b s = (false, b, s).
Proof.
  intros H E Hm. unfold move. rewrite E.
  pose proof (proj1 (slide_unmoved_iff d (grid b) H) Hm) as Hg.
  destruct (slide d (grid b)) as [g' m]. simpl in *. subst.
  now destruct b.
Qed.

Lemma move_moved c d b s :
  direction_of c = Some d -> snd (slide d (grid b)) = true ->
  move choose c b s =
  (true,
   fst (addRandomPiece choose (mkBoard (fst (slide d (grid b))) (winTarget b)) s),
   snd (addRandomPiece choose (mkBoard (fst (slide d (grid b))) (winTarget b)) s)).
Proof.
  intros E Hm. unfold move. rewrite E.
  destruct (slide d (grid b)) as [g' m]. simpl in *. subst.
  now destruct (addRandomPiece choose _ s).
Qed.

Lemma move_flag c d b s :
  direction_of c = Some d ->
  fst (fst (move choose c b s)) = snd (slide d (grid b)).
Proof.
  intros E. unfold move. rewrite E.
  destruct (slide d (grid b)) as [g' m]. simpl.
  destruct m; [now destruct (addRandomPiece choose _ s) | reflexivity].
Qed.

End Move.

Lemma direction_of_letters c :
  direction_of c =
  if Ascii.eqb c "L" || Ascii.eqb c "l" then Some DLeft
  else if Ascii.eqb c "R" || Ascii.eqb c "r" then Some DRight
  else if Ascii.eqb c "U" || Ascii.eqb c "u" then Some DUp
  else if Ascii.eqb c "D" || Ascii.eqb c "d" then Some DDown
  else None.
Proof.
  destruct c as [[] [] [] [] [] [] [] []]; reflexivity.
Qed.

(* ================================================================= *)
(** * The rotations (C5) *)

(** C5: for every 4x4 grid, four quarter turns (counter-clockwise, or
    clockwise) give the grid back; the clockwise and counter-clockwise
    turns undo each other; and each directional slide is the left slide
    between a rotation into a frame and the rotation back out of it,
    the two rotations composing to the identity, so that Right, Up and
    Down leave the grid in its original orientation. *)
Theorem rotateBoard_restores (g : Grid) :
  wf_grid g = true ->
  rotateBoard true (rotateBoard true (rotateBoard true (rotateBoard true g))) = g /\
  rotateBoard false (rotateBoard false (rotateBoard false (rotateBoard false g))) = g /\
  rotateBoard false (rotateBoard true g) = g /\
  rotateBoard true (rotateBoard false g) = g /\
  forall d,
    slide d g = (from_frame d (fst (slidePiecesLeft (to_frame d g))),
                 snd (slidePiecesLeft (to_frame d g))) /\
    from_frame d (to_frame d g) = g /\
    to_frame d (from_frame d g) = g.
Proof.
  intros H. repeat split.
  - now apply rotate_ccw_four.
  - now apply rotate_cw_four.
  - now apply rotate_cw_ccw.
  - now apply rotate_ccw_cw.
  - destruct d; simpl;
      unfold slidePiecesRight, slidePiecesUp, slidePiecesDown;
      now destruct (slidePiecesLeft _).
  - now apply from_to_frame.
  - now apply to_from_frame.
Qed.

Lemma rotateBoard_restores_witness :
  wf_grid count_grid = true /\
  rotateBoard true (rotateBoard true (rotateBoard true (rotateBoard true count_grid)))
  = count_grid.
Proof.
  split; [reflexivity|].
  exact (proj1 (rotateBoard_restores count_grid eq_refl)).
Defined.

(* ================================================================= *)
(** * Unrecognised directions (C7) *)

(** C7: for every board and every state of the random source, [move]
    with a character that is none of L, R, U, D in either case returns
    false and leaves the board and the random source exactly as they
    were (no tile spawned); a recognised direction whose slide changes
    nothing gives the very same result. *)
Theorem move_unrecognised_direction {Rng : Type}
    (choose : Z -> Z -> Rng -> Z * Rng) (c : ascii) (b : Board) (s : Rng) :
  ~ In c ["L"; "l"; "R"; "r"; "U"; "u"; "D"; "d"]%char ->
  move choose c b s = (false, b, s) /\
  forall c' d, wf_grid (grid b) = true -> direction_of c' = Some d ->
    fst (fst (move choose c' b s)) = false ->
    move choose c' b s = move choose c b s.
Proof.
  intros N.
  assert (E : direction_of c = None).
  { rewrite direction_of_letters.
    repeat match goal with
           | |- context [Ascii.eqb c ?x] =>
               destruct (Ascii.eqb_spec c x) as [->|_];
               [exfalso; apply N; simpl; tauto|]
           end.
    reflexivity. }
  split; [now apply move_unrecognised|].
  intros c' d H E' Hf. rewrite (move_unrecognised _ c) by assumption.
  apply (move_unmoved _ c' d); auto.
  now rewrite <- (move_flag choose c' d b s).
Qed.

Lemma move_unrecognised_direction_witness :
  move counterRng "x" sample_board 7 = (false, sample_board, 7).
Proof.
  refine (proj1 (move_unrecognised_direction counterRng "x" sample_board 7 _)).
  simpl. intros [E|[E|[E|[E|[E|[E|[E|[E|[]]]]]]]]]; discriminate E.
Defined.

(* ================================================================= *)
(** * The spawn (C6) *)

(** C6: [addRandomPiece] returns the board and the random source as
    they were when the grid has no empty cell.  Otherwise it draws an
    index [k] in [0, emptyCount-1], then a number [r] in [1,10], and
    writes into the [k]-th empty cell (which held 0) the value 2 or 4
    that [r] selects under the thresholds of the win target (256: r<=5
    gives 2; 512: r<=7 gives 2; otherwise r<=9 gives 2; else 4); every
    other cell keeps its value. *)
Theorem addRandomPiece_spec {Rng : Type}
    (choose : Z -> Z -> Rng -> Z * Rng) (b : Board) (s : Rng) :
  in_range choose ->
  wf_grid (grid b) = true ->
  let es := emptySquares (grid b) in
  (forall i j, In (i, j) es <-> (i < 4)%nat /\ (j < 4)%nat /\ cell (grid b) i j = 0) /\
  (es = [] -> addRandomPiece choose b s = (b, s)) /\
  (es <> [] ->
   let k := fst (choose 0 (Z.of_nat (length es) - 1) s) in
   let s1 := snd (choose 0 (Z.of_nat (length es) - 1) s) in
   let r := fst (choose 1 10 s1) in
   let s2 := snd (choose 1 10 s1) in
   let v := if winTarget b =? 256 then (if r <=? 5 then 2 else 4)
            else if winTarget b =? 512 then (if r <=? 7 then 2 else 4)
            else (if r <=? 9 then 2 else 4) in
   0 <= k <= Z.of_nat (length es) - 1 /\ 1 <= r <= 10 /\ (v = 2 \/ v = 4) /\
   exists i j,
     nth_error es (Z.to_nat k) = Some (i, j) /\
     (i < 4)%nat /\ (j < 4)%nat /\ cell (grid b) i j = 0 /\
     addRandomPiece choose b s =
       (mkBoard (set_cell (grid b) i j v) (winTarget b), s2) /\
     cell (set_cell (grid b) i j v) i j = v /\
     forall i' j', (i' < 4)%nat -> (j' < 4)%nat -> (i', j') <> (i, j) ->
       cell (set_cell (grid b) i j v) i' j' = cell (grid b) i' j').
Proof.
  intros contract H es. split; [|split].
  - intros i j. apply emptySquares_In.
  - apply addRandomPiece_full.
  - intros Hne k s1 r s2 v.
    destruct (addRandomPiece_spawn choose contract b s Hne) as (Hk & i & j & Hn & Ha).
    split; [exact Hk|]. split; [apply contract; lia|].
    split; [apply (spawn_value_2_or_4 (winTarget b) r)|].
    exists i, j.
    pose proof (nth_error_In _ _ Hn) as Hin.
    apply emptySquares_In in Hin as (Hi & Hj & Hz).
    repeat split; auto.
    + now apply cell_set_cell_same.
    + intros i' j' Hi' Hj' N. now apply cell_set_cell_other.
Qed.

Lemma addRandomPiece_spec_witness :
  in_range counterRng /\ wf_grid (grid sample_board) = true /\
  exists i j,
    cell (grid sample_board) i j = 0 /\
    addRandomPiece counterRng sample_board 3 =
    (mkBoard (set_cell (grid sample_board) i j 2) 256, 5).
Proof.
  split; [exact counterRng_in_range|]. split; [reflexivity|].
  destruct (proj2 (proj2
    (addRandomPiece_spec counterRng sample_board 3 counterRng_in_range eq_refl))
    ltac:(discriminate))
    as (_ & _ & _ & i & j & _ & _ & _ & Hz & Ha & _).
  exists i, j. split; [exact Hz | exact Ha].
Defined.

(* ================================================================= *)
(** * The contract of [move] (C4) *)

(** C4: for every 4x4 board and every recognised direction, [move]
    returns true exactly when the slide in that direction changes the
    grid.  When it returns false the board and the random source are
    returned untouched.  When it returns true the result is the slid
    grid with exactly one more tile: one cell that was empty after the
    slide now holds 2 or 4, every other cell is as the slide left it. *)
Theorem move_contract {Rng : Type}
    (choose : Z -> Z -> Rng -> Z * Rng) (c : ascii) (d : Direction)
    (b : Board) (s : Rng) :
  in_range choose ->
  wf_grid (grid b) = true ->
  direction_of c = Some d ->
  let g' := fst (slide d (grid b)) in
  let res := move choose c b s in
  (fst (fst res) = true <-> g' <> grid b) /\
  (fst (fst res) = false -> res = (false, b, s)) /\
  (fst (fst res) = true ->
   res = (true, fst (addRandomPiece choose (mkBoard g' (winTarget b)) s),
                snd (addRandomPiece choose (mkBoard g' (winTarget b)) s)) /\
   tiles (grid (snd (fst res))) = S (tiles g') /\
   exists i j v, (i < 4)%nat /\ (j < 4)%nat /\ cell g' i j = 0 /\
     (v = 2 \/ v = 4) /\
     snd (fst res) = mkBoard (set_cell g' i j v) (winTarget b) /\
     cell (grid (snd (fst res))) i j = v /\
     forall i' j', (i' < 4)%nat -> (j' < 4)%nat -> (i', j') <> (i, j) ->
       cell (grid (snd (fst res))) i' j' = cell g' i' j').
Proof.
  intros contract H E g' res.
  assert (Hflag : fst (fst res) = snd (slide d (grid b)))
    by (apply move_flag; assumption).
  split; [|split].
  - rewrite Hflag. now apply slide_moved_iff.
  - intros Hf. apply (move_unmoved choose c d); congruence.
  - intros Ht. rewrite Hflag in Ht.
    pose proof (move_moved choose c d b s E Ht) as Hm. fold g' in Hm. fold res in Hm.
    pose proof (slide_wf d (grid b) H) as Hw. fold g' in Hw.
    split; [exact Hm|].
    destruct (addRandomPiece_cases choose contract (mkBoard g' (winTarget b)) s)
      as [(Hfull & _) | (i & j & v & Hi & Hj & Hz & Hv & Ha)].
    + exfalso. apply Hfull. now apply slide_moved_has_empty.
    + simpl in Hz, Ha. rewrite Hm. simpl. rewrite Ha. simpl. split.
      * apply tiles_set_cell; auto. destruct Hv; lia.
      * exists i, j, v. repeat split; auto.
        -- now apply cell_set_cell_same.
        -- intros i' j' Hi' Hj' N. now apply cell_set_cell_other.
Qed.

Lemma move_contract_witness :
  in_range counterRng /\ wf_grid (grid sample_board) = true /\
  direction_of "l" = Some DLeft /\
  (fst (fst (move counterRng "l" sample_board 0)) = true <->
   fst (slide DLeft (grid sample_board)) <> grid sample_board).
Proof.
  split; [exact counterRng_in_range|]. split; [reflexivity|]. split; [reflexivity|].
  exact (proj1
    (move_contract counterRng "l" DLeft sample_board 0
       counterRng_in_range eq_refl eq_refl)).
Defined.

(* ================================================================= *)
(** * A slide that changes the grid leaves room (C10) *)

(** C10: for every 4x4 grid and direction, if the slide changes the
    grid then the slid grid has an empty cell, so the list of empty
    squares the spawn scans is not empty; hence inside a [move] that
    returns true the spawn never takes its do-nothing branch: the board
    returned has exactly one tile more than the slid grid. *)
Theorem slide_leaves_room {Rng : Type}
    (choose : Z -> Z -> Rng -> Z * Rng) (c : ascii) (d : Direction)
    (b : Board) (s : Rng) :
  in_range choose ->
  wf_grid (grid b) = true ->
  direction_of c = Some d ->
  let g' := fst (slide d (grid b)) in
  (g' <> grid b ->
   has_empty g' /\ emptySquares g' <> [] /\ (tiles g' < 16)%nat) /\
  (fst (fst (move choose c b s)) = true ->
   addRandomPiece choose (mkBoard g' (winTarget b)) s
     <> (mkBoard g' (winTarget b), s) /\
   tiles (grid (snd (fst (move choose c b s)))) = S (tiles g')).
Proof.
  intros contract H E g'.
  assert (Hroom : snd (slide d (grid b)) = true -> has_empty g')
    by (now apply slide_moved_has_empty).
  pose proof (slide_wf d (grid b) H) as Hw. fold g' in Hw.
  split.
  - intros Hch. apply (slide_moved_iff d (grid b) H) in Hch.
    specialize (Hroom Hch).
    assert (Hne : emptySquares g' <> [])
      by (intros Hnil; now apply (proj1 (emptySquares_nil g') Hnil)).
    repeat split; auto.
    pose proof (tiles_emptySquares g').
    destruct (emptySquares g'); [contradiction | simpl in *; lia].
  - intros Ht. rewrite (move_flag choose c d b s E) in Ht.
    rewrite (move_moved choose c d b s E Ht). fold g'. simpl.
    destruct (addRandomPiece_cases choose contract (mkBoard g' (winTarget b)) s)
      as [(Hfull & _) | (i & j & v & Hi & Hj & Hz & Hv & Ha)].
    + exfalso. apply Hfull. now apply Hroom.
    + simpl in Hz, Ha.
      assert (Ht' : tiles (grid (fst (addRandomPiece choose
                      (mkBoard g' (winTarget b)) s))) = S (tiles g')).
      { rewrite Ha. simpl. apply tiles_set_cell; auto. destruct Hv; lia. }
      split; [|exact Ht'].
      intros Eq. rewrite Eq in Ht'. simpl in Ht'. lia.
Qed.

Lemma slide_leaves_room_witness :
  in_range counterRng /\ wf_grid (grid sample_board) = true /\
  direction_of "U" = Some DUp /\
  (fst (slide DUp (grid sample_board)) <> grid sample_board ->
   has_empty (fst (slide DUp (grid sample_board))) /\
   emptySquares (fst (slide DUp (grid sample_board))) <> [] /\
   (tiles (fst (slide DUp (grid sample_board))) < 16)%nat).
Proof.
  split; [exact counterRng_in_range|]. split; [reflexivity|]. split; [reflexivity|].
  exact (proj1
    (slide_leaves_room counterRng "U" DUp sample_board 0
       counterRng_in_range eq_refl eq_refl)).
Defined.

(* ================================================================= *)
(** * The data-model invariant through every operation *)

Lemma cell_ok_0 : cell_ok 0.
Proof. now left. Qed.

Lemma cell_ok_2 : cell_ok 2.
Proof. right. exists 1. split; [lia | reflexivity]. Qed.

Lemma cell_ok_4 : cell_ok 4.
Proof. right. exists 2. split; [lia | reflexivity]. Qed.

Lemma cell_ok_double v : cell_ok v -> cell_ok (v * 2).
Proof.
  intros [-> | (k & Hk & ->)]; [now left | right].
  exists (k + 1). split; [lia|]. rewrite Z.pow_add_r by lia. reflexivity.
Qed.

Create HintDb cells.

#[local] Hint Resolve cell_ok_0 cell_ok_2 cell_ok_4 cell_ok_double : cells.

Lemma slideRow_ok a b c d :
  cell_ok a -> cell_ok b -> cell_ok c -> cell_ok d ->
  Forall cell_ok (slideRow [a; b; c; d]).
Proof.
  intros Ha Hb Hc Hd.
  row_unfold; zcases; repeat apply Forall_cons; try apply Forall_nil;
    auto with cells.
Qed.

Lemma grid_ok_map_slideRow g :
  wf_grid g = true -> grid_ok g -> grid_ok (map slideRow g).
Proof.
  intros H Hok i j Hi Hj. grid_cells g H.
  index4 i Hi; unfold cell; cbn [map nth];
    (apply Forall_nth;
     [|rewrite slideRow_length by (unfold BOARD_SIZE; simpl; lia);
       unfold BOARD_SIZE; lia]);
    apply slideRow_ok.
  all: first [ exact (Hok 0%nat 0%nat ltac:(lia) ltac:(lia))
             | exact (Hok 0%nat 1%nat ltac:(lia) ltac:(lia))
             | exact (Hok 0%nat 2%nat ltac:(lia) ltac:(lia))
             | exact (Hok 0%nat 3%nat ltac:(lia) ltac:(lia))
             | exact (Hok 1%nat 0%nat ltac:(lia) ltac:(lia))
             | exact (Hok 1%nat 1%nat ltac:(lia) ltac:(lia))
             | exact (Hok 1%nat 2%nat ltac:(lia) ltac:(lia))
             | exact (Hok 1%nat 3%nat ltac:(lia) ltac:(lia))
             | exact (Hok 2%nat 0%nat ltac:(lia) ltac:(lia))
             | exact (Hok 2%nat 1%nat ltac:(lia) ltac:(lia))
             | exact (Hok 2%nat 2%nat ltac:(lia) ltac:(lia))
             | exact (Hok 2%nat 3%nat ltac:(lia) ltac:(lia))
             | exact (Hok 3%nat 0%nat ltac:(lia) ltac:(lia))
             | exact (Hok 3%nat 1%nat ltac:(lia) ltac:(lia))
             | exact (Hok 3%nat 2%nat ltac:(lia) ltac:(lia))
             | exact (Hok 3%nat 3%nat ltac:(lia) ltac:(lia)) ].
Qed.

Lemma grid_ok_rotate ccw g :
  wf_grid g = true -> grid_ok g -> grid_ok (rotateBoard ccw g).
Proof.
  intros H Hok i j Hi Hj. destruct ccw.
  - rewrite cell_rotate_ccw by assumption. apply Hok; lia.
  - rewrite cell_rotate_cw by assumption. apply Hok; lia.
Qed.

Lemma grid_ok_to_frame d g :
  wf_grid g = true -> grid_ok g -> grid_ok (to_frame d g).
Proof.
  intros H Hok. destruct d; cbn [to_frame].
  - exact Hok.
  - apply grid_ok_rotate; [apply rotateBoard_wf, H|].
    apply grid_ok_rotate; assumption.
  - apply grid_ok_rotate; assumption.
  - apply grid_ok_rotate; assumption.
Qed.

Lemma grid_ok_from_frame d g :
  wf_grid g = true -> grid_ok g -> grid_ok (from_frame d g).
Proof.
  intros H Hok. destruct d; cbn [from_frame].
  - exact Hok.
  - apply grid_ok_rotate; [apply rotateBoard_wf, H|].
    apply grid_ok_rotate; assumption.
  - apply grid_ok_rotate; assumption.
  - apply grid_ok_rotate; assumption.
Qed.

Lemma grid_ok_slide d g :
  wf_grid g = true -> grid_ok g -> grid_ok (fst (slide d g)).
Proof.
  intros H Hok. rewrite slide_frame by assumption. cbn [fst].
  apply grid_ok_from_frame.
  - apply map_slideRow_wf, to_frame_wf, H.
  - apply grid_ok_map_slideRow; [apply to_frame_wf, H|].
    now apply grid_ok_to_frame.
Qed.

Lemma grid_ok_set_cell g i j v :
  wf_grid g = true -> (i < 4)%nat -> (j < 4)%nat ->
  grid_ok g -> cell_ok v -> grid_ok (set_cell g i j v).
Proof.
  intros H Hi Hj Hok Hv i' j' Hi' Hj'.
  destruct (Nat.eq_dec i' i) as [->|Ni]; [destruct (Nat.eq_dec j' j) as [->|Nj]|].
  - now rewrite cell_set_cell_same.
  - rewrite cell_set_cell_other by (auto; congruence). now apply Hok.
  - rewrite cell_set_cell_other by (auto; congruence). now apply Hok.
Qed.

Section Invariant.

Context {Rng : Type} (choose : Z -> Z -> Rng -> Z * Rng).
Hypothesis contract : in_range choose.

Lemma addRandomPiece_winTarget b s :
  winTarget (fst (addRandomPiece choose b s)) = winTarget b.
Proof.
  destruct (addRandomPiece_cases choose contract b s)
    as [(_ & ->) | (i & j & v & _ & _ & _ & _ & ->)]; reflexivity.
Qed.

Lemma board_inv_addRandomPiece b s :
  board_inv b -> board_inv (fst (addRandomPiece choose b s)).
Proof.
  intros (Hw & Hok & Ht).
  destruct (addRandomPiece_cases choose contract b s)
    as [(_ & ->) | (i & j & v & Hi & Hj & Hz & Hv & ->)].
  - now repeat split.
  - repeat split; simpl; auto using set_cell_wf.
    apply grid_ok_set_cell; auto. destruct Hv as [-> | ->]; auto with cells.
Qed.

Lemma move_winTarget c b s :
  winTarget (snd (fst (move choose c b s))) = winTarget b.
Proof.
  unfold move. destruct (direction_of c) as [d|]; [|reflexivity].
  destruct (slide d (grid b)) as [g' m]. destruct m; [|reflexivity].
  pose proof (addRandomPiece_winTarget (mkBoard g' (winTarget b)) s) as E.
  now destruct (addRandomPiece choose _ s).
Qed.

Lemma board_inv_move c b s :
  board_inv b -> board_inv (snd (fst (move choose c b s))).
Proof.
  intros (Hw & Hok & Ht). unfold move.
  destruct (direction_of c) as [d|]; [|now repeat split].
  pose proof (slide_wf d (grid b) Hw) as Hw'.
  pose proof (grid_ok_slide d (grid b) Hw Hok) as Hok'.
  destruct (slide d (grid b)) as [g' m]. simpl in Hw', Hok'.
  assert (Hb : board_inv (mkBoard g' (winTarget b))) by now repeat split.
  destruct m; [|exact Hb].
  pose proof (board_inv_addRandomPiece _ s Hb) as Hb'.
  now destruct (addRandomPiece choose _ s).
Qed.

Lemma Board_init_spawns mode s :
  Board_init choose mode s =
  addRandomPiece choose
    (fst (addRandomPiece choose (mkBoard blank (target_of mode)) s))
    (snd (addRandomPiece choose (mkBoard blank (target_of mode)) s)).
Proof.
  unfold Board_init.
  change (fold_left _ indices blank) with blank.
  fold (target_of mode).
  now destruct (addRandomPiece choose (mkBoard blank (target_of mode)) s).
Qed.

Lemma board_inv_blank mode : board_inv (mkBoard blank (target_of mode)).
Proof.
  repeat split.
  - intros i j Hi Hj. index4 i Hi; index4 j Hj; apply cell_ok_0.
  - unfold target_of. simpl.
    destruct (String.eqb mode "E"); auto. destruct (String.eqb mode "M"); auto.
Qed.

Lemma board_inv_init mode s : board_inv (fst (Board_init choose mode s)).
Proof.
  rewrite Board_init_spawns.
  apply board_inv_addRandomPiece, board_inv_addRandomPiece, board_inv_blank.
Qed.

Lemma Board_init_winTarget mode s :
  winTarget (fst (Board_init choose mode s)) = target_of mode.
Proof.
  rewrite Board_init_spawns. now rewrite !addRandomPiece_winTarget.
Qed.

Lemma reachable_inv mode b :
  reachable choose mode b -> board_inv b /\ winTarget b = target_of mode.
Proof.
  induction 1 as [s | b c s Hr [IHinv IHw]].
  - split; [apply board_inv_init | apply Board_init_winTarget].
  - split; [now apply board_inv_move | now rewrite move_winTarget].
Qed.

End Invariant.

(** ** The constructor *)

Lemma cell_blank i j : cell blank i j = 0.
Proof.
  unfold cell, blank, BOARD_SIZE.
  destruct i as [|[|[|[|i]]]]; simpl;
    try (destruct j as [|[|[|[|j']]]]; simpl; try reflexivity; now destruct j').
  destruct i; now destruct j.
Qed.

Section Constructor.

Context {Rng : Type} (choose : Z -> Z -> Rng -> Z * Rng).
Hypothesis contract : in_range choose.

(** The constructed grid is the blank grid with two different cells
    written, each with a 2 or a 4. *)
Lemma Board_init_two_cells mode s :
  exists i1 j1 v1 i2 j2 v2,
    (i1 < 4)%nat /\ (j1 < 4)%nat /\ (i2 < 4)%nat /\ (j2 < 4)%nat /\
    (v1 = 2 \/ v1 = 4) /\ (v2 = 2 \/ v2 = 4) /\
    (i2, j2) <> (i1, j1) /\
    fst (Board_init choose mode s) =
    mkBoard (set_cell (set_cell blank i1 j1 v1) i2 j2 v2) (target_of mode).
Proof.
  rewrite Board_init_spawns.
  set (b0 := mkBoard blank (target_of mode)).
  destruct (addRandomPiece_cases choose contract b0 s)
    as [(Hfull & _) | (i1 & j1 & v1 & Hi1 & Hj1 & _ & Hv1 & E1)].
  { exfalso. apply Hfull. exists 0%nat, 0%nat. repeat split; lia. }
  rewrite E1. simpl grid in *. simpl winTarget in *.
  set (g1 := set_cell blank i1 j1 v1) in *.
  assert (Hw1 : wf_grid g1 = true) by (now apply set_cell_wf).
  assert (Ht1 : tiles g1 = 1%nat).
  { unfold g1. rewrite tiles_set_cell; auto using cell_blank.
    destruct Hv1; lia. }
  destruct (addRandomPiece_cases choose contract (mkBoard g1 (target_of mode))
              (snd (addRandomPiece choose b0 s)))
    as [(Hfull & _) | (i2 & j2 & v2 & Hi2 & Hj2 & Hz2 & Hv2 & E2)].
  { exfalso. apply Hfull. simpl.
    apply emptySquares_nil in Hfull. simpl in Hfull.
    pose proof (tiles_emptySquares g1) as Hc.
    rewrite Hfull, Ht1 in Hc. simpl in Hc. lia. }
  simpl in Hz2, E2.
  exists i1, j1, v1, i2, j2, v2. repeat split; auto.
  intros Eq. injection Eq as -> ->.
  unfold g1 in Hz2. rewrite cell_set_cell_same in Hz2 by auto.
  destruct Hv1; lia.
Qed.

End Constructor.

(* ================================================================= *)
(** * Construction (C8) *)

(** C8: the constructor starts from the grid of sixteen zeros, sets the
    win target to 256 for "E", 512 for "M" and 1024 otherwise ("H"),
    and runs the spawn twice; the board it returns is 4x4, has exactly
    two non-zero cells and fourteen empty ones, and every cell is 0, 2
    or 4. *)
Theorem Board_init_spec {Rng : Type}
    (choose : Z -> Z -> Rng -> Z * Rng) (mode : string) (s : Rng) :
  in_range choose ->
  let b := fst (Board_init choose mode s) in
  Board_init choose mode s =
    addRandomPiece choose
      (fst (addRandomPiece choose (mkBoard blank (target_of mode)) s))
      (snd (addRandomPiece choose (mkBoard blank (target_of mode)) s)) /\
  (forall i j, cell blank i j = 0) /\
  target_of "E" = 256 /\ target_of "M" = 512 /\ target_of "H" = 1024 /\
  winTarget b = target_of mode /\
  wf_grid (grid b) = true /\
  tiles (grid b) = 2%nat /\
  length (emptySquares (grid b)) = 14%nat /\
  forall i j, (i < 4)%nat -> (j < 4)%nat ->
    cell (grid b) i j = 0 \/ cell (grid b) i j = 2 \/ cell (grid b) i j = 4.
Proof.
  intros contract b.
  split; [apply Board_init_spawns|]. split; [apply cell_blank|].
  do 3 (split; [reflexivity|]).
  destruct (Board_init_two_cells choose contract mode s)
    as (i1 & j1 & v1 & i2 & j2 & v2 & Hi1 & Hj1 & Hi2 & Hj2 & Hv1 & Hv2 & Hne & E).
  unfold b. rewrite E. simpl grid. simpl winTarget.
  set (g1 := set_cell blank i1 j1 v1).
  assert (Hw1 : wf_grid g1 = true) by (now apply set_cell_wf).
  assert (Hz2 : cell g1 i2 j2 = 0).
  { unfold g1. rewrite cell_set_cell_other by auto. apply cell_blank. }
  assert (Ht : tiles (set_cell g1 i2 j2 v2) = 2%nat).
  { rewrite tiles_set_cell by (auto; destruct Hv2; lia).
    unfold g1. rewrite tiles_set_cell; auto using cell_blank.
    destruct Hv1; lia. }
  split; [reflexivity|]. split; [now apply set_cell_wf|].
  split; [exact Ht|]. split.
  - pose proof (tiles_emptySquares (set_cell g1 i2 j2 v2)). lia.
  - intros i j Hi Hj.
    destruct (Nat.eq_dec i i2) as [->|N2]; [destruct (Nat.eq_dec j j2) as [->|N2]|].
    + rewrite cell_set_cell_same by auto. destruct Hv2; auto.
    + rewrite cell_set_cell_other by (auto; congruence).
      unfold g1.
      destruct (Nat.eq_dec i2 i1) as [->|N1]; [destruct (Nat.eq_dec j j1) as [->|N1]|].
      * rewrite cell_set_cell_same by auto. destruct Hv1; auto.
      * rewrite cell_set_cell_other by (auto; congruence). left. apply cell_blank.
      * rewrite cell_set_cell_other by (auto; congruence). left. apply cell_blank.
    + rewrite cell_set_cell_other by (auto; congruence).
      unfold g1.
      destruct (Nat.eq_dec i i1) as [->|N1]; [destruct (Nat.eq_dec j j1) as [->|N1]|].
      * rewrite cell_set_cell_same by auto. destruct Hv1; auto.
      * rewrite cell_set_cell_other by (auto; congruence). left. apply cell_blank.
      * rewrite cell_set_cell_other by (auto; congruence). left. apply cell_blank.
Qed.

Lemma Board_init_spec_witness :
  in_range counterRng /\
  tiles (grid (fst (Board_init counterRng "E" 0))) = 2%nat.
Proof.
  split; [exact counterRng_in_range|].
  exact (proj1 (proj2 (proj2 (proj2 (proj2 (proj2 (proj2 (proj2
    (Board_init_spec counterRng "E" 0 counterRng_in_range))))))))).
Defined.

(* ================================================================= *)
(** * Reachable boards (C9) *)

(** C9: every board a game can reach (constructed with any mode, then
    moved by any characters, under any random source that honours its
    contract) is 4x4 with every cell 0 or 2^k for some k >= 1, and its
    win target is the one the mode fixed at construction, one of 256,
    512 and 1024; the invariant is kept by every spawn and every move,
    neither of which changes the win target. *)
Theorem reachable_invariant {Rng : Type}
    (choose : Z -> Z -> Rng -> Z * Rng) (mode : string) :
  in_range choose ->
  (forall s, board_inv (fst (Board_init choose mode s))) /\
  (forall b, reachable choose mode b ->
     board_inv b /\ winTarget b = target_of mode) /\
  (forall b s, board_inv b ->
     board_inv (fst (addRandomPiece choose b s)) /\
     winTarget (fst (addRandomPiece choose b s)) = winTarget b) /\
  (forall b c s, board_inv b ->
     board_inv (snd (fst (move choose c b s))) /\
     winTarget (snd (fst (move choose c b s))) = winTarget b).
Proof.
  intros contract. split; [|split; [|split]].
  - intros s. now apply board_inv_init.
  - intros b Hb. now apply (reachable_inv choose contract mode).
  - intros b s Hb. split.
    + now apply board_inv_addRandomPiece.
    + now apply addRandomPiece_winTarget.
  - intros b c s Hb. split.
    + now apply board_inv_move.
    + now apply move_winTarget.
Qed.

Lemma reachable_invariant_witness :
  in_range counterRng /\
  board_inv (snd (fst (move counterRng "L" (fst (Board_init counterRng "M" 0)) 4))).
Proof.
  split; [exact counterRng_in_range|].
  refine (proj1 (proj1 (proj2
    (reachable_invariant counterRng "M" counterRng_in_range)) _ _)).
  apply reach_move, reach_init.
Defined.

(* ================================================================= *)
(** * Game over *)

Lemma blocked_at_iff g i j :
  blocked_at g i j = true <->
  cell g i j <> 0 /\
  ((j < 3)%nat -> cell g i j <> cell g i (j + 1)) /\
  ((i < 3)%nat -> cell g i j <> cell g (i + 1) j).
Proof.
  unfold blocked_at, BOARD_SIZE. simpl Nat.sub.
  destruct (Z.eqb_spec (cell g i j) 0) as [E0|N0]; simpl.
  { split; [discriminate | intros (? & _); contradiction]. }
  destruct (Nat.ltb_spec j 3);
    destruct (Z.eqb_spec (cell g i j) (cell g i (j + 1)));
    destruct (Nat.ltb_spec i 3);
    destruct (Z.eqb_spec (cell g i j) (cell g (i + 1) j)); simpl;
    (split;
     [ try discriminate; intros _; repeat split; auto; intros; lia
     | intros (_ & Hh & Hv); try reflexivity; exfalso;
       solve [apply Hh; auto | apply Hv; auto] ]).
Qed.

Lemma isGameOver_blocked g :
  isGameOver g = true <->
  forall i j, (i < 4)%nat -> (j < 4)%nat -> blocked_at g i j = true.
Proof.
  unfold isGameOver. rewrite forallb_forall. split.
  - intros H i j Hi Hj. apply In_indices in Hi, Hj.
    specialize (H i Hi). rewrite forallb_forall in H. now apply H.
  - intros H i Hi. apply forallb_forall. intros j Hj.
    apply In_indices in Hi, Hj. now apply H.
Qed.

Lemma isGameOver_iff g :
  isGameOver g = true <->
  (forall i j, (i < 4)%nat -> (j < 4)%nat -> cell g i j <> 0) /\
  (forall i j, (i < 4)%nat -> (j < 3)%nat -> cell g i j <> cell g i (j + 1)) /\
  (forall i j, (i < 3)%nat -> (j < 4)%nat -> cell g i j <> cell g (i + 1) j).
Proof.
  rewrite isGameOver_blocked. split.
  - intros H. repeat split; intros i j Hi Hj.
    + apply (blocked_at_iff g i j); auto.
    + apply (blocked_at_iff g i j); auto; apply H; lia.
    + apply (blocked_at_iff g i j); auto; apply H; lia.
  - intros (Hz & Hh & Hv) i j Hi Hj. apply blocked_at_iff. auto.
Qed.

Lemma row_stuck_full a b c d :
  row_stuck a b c d = true ->
  a <> 0 \/ b <> 0 \/ c <> 0 \/ d <> 0 ->
  a <> 0 /\ b <> 0 /\ c <> 0 /\ d <> 0 /\ a <> b /\ b <> c /\ c <> d.
Proof.
  unfold row_stuck.
  destruct (Z.eqb_spec a 0); destruct (Z.eqb_spec b 0);
    destruct (Z.eqb_spec c 0); destruct (Z.eqb_spec d 0); simpl;
    try discriminate; try tauto.
  destruct (Z.eqb_spec a b); destruct (Z.eqb_spec b c);
    destruct (Z.eqb_spec c d); simpl; try discriminate; tauto.
Qed.

Lemma row_stuck_intro a b c d :
  a <> 0 -> b <> 0 -> c <> 0 -> d <> 0 -> a <> b -> b <> c -> c <> d ->
  row_stuck a b c d = true.
Proof.
  intros. unfold row_stuck.
  repeat match goal with
         | H : ?x <> ?y |- _ => rewrite (proj2 (Z.eqb_neq x y) H); clear H
         end.
  reflexivity.
Qed.

Lemma rowMoved_stuck a b c d :
  rowMoved [a; b; c; d] = false /\ rowMoved [d; c; b; a] = false <->
  row_stuck a b c d = true.
Proof.
  rewrite <- orb_false_iff, rowMoved_both_ways, negb_false_iff. reflexivity.
Qed.

Lemma existsb_four {A : Type} (f : A -> bool) a b c d :
  existsb f [a; b; c; d] = f a || (f b || (f c || f d)).
Proof. simpl. now rewrite orb_false_r. Qed.

Lemma slide_flag_cells dir a b c d e f g h i j k l m n o p :
  snd (slide dir [[a; b; c; d]; [e; f; g; h]; [i; j; k; l]; [m; n; o; p]]) =
  match dir with
  | DLeft => rowMoved [a; b; c; d] || (rowMoved [e; f; g; h] ||
             (rowMoved [i; j; k; l] || rowMoved [m; n; o; p]))
  | DRight => rowMoved [p; o; n; m] || (rowMoved [l; k; j; i] ||
              (rowMoved [h; g; f; e] || rowMoved [d; c; b; a]))
  | DUp => rowMoved [d; h; l; p] || (rowMoved [c; g; k; o] ||
           (rowMoved [b; f; j; n] || rowMoved [a; e; i; m]))
  | DDown => rowMoved [m; i; e; a] || (rowMoved [n; j; f; b] ||
             (rowMoved [o; k; g; c] || rowMoved [p; l; h; d]))
  end.
Proof.
  rewrite slide_frame by reflexivity. unfold snd.
  destruct dir; unfold to_frame.
  - apply existsb_four.
  - rewrite !rotateBoard_ccw_cells. apply existsb_four.
  - rewrite rotateBoard_ccw_cells. apply existsb_four.
  - rewrite rotateBoard_cw_cells. apply existsb_four.
Qed.

Lemma lines_stuck_sixteen a b c d e f g h i j k l m n o p :
  lines_stuck [[a; b; c; d]; [e; f; g; h]; [i; j; k; l]; [m; n; o; p]] =
  (row_stuck a b c d && (row_stuck e f g h &&
    (row_stuck i j k l && (row_stuck m n o p && true))))
  && (row_stuck a e i m && (row_stuck b f j n &&
       (row_stuck c g k o && (row_stuck d h l p && true)))).
Proof. reflexivity. Qed.

Lemma no_slide_lines g :
  wf_grid g = true ->
  ((forall d, snd (slide d g) = false) <-> lines_stuck g = true).
Proof.
  intros H. grid_cells g H. rewrite lines_stuck_sixteen. split.
  - intros Hd.
    pose proof (Hd DLeft) as HL. pose proof (Hd DRight) as HR.
    pose proof (Hd DUp) as HU. pose proof (Hd DDown) as HD.
    rewrite slide_flag_cells in HL, HR, HU, HD.
    apply orb_false_iff in HL as (L0 & HL), HR as (R3 & HR),
                           HU as (U3 & HU), HD as (D0 & HD).
    apply orb_false_iff in HL as (L1 & HL), HR as (R2 & HR),
                           HU as (U2 & HU), HD as (D1 & HD).
    apply orb_false_iff in HL as (L2 & L3), HR as (R1 & R0),
                           HU as (U1 & U0), HD as (D2 & D3).
    apply andb_true_iff; split;
      do 4 (apply andb_true_iff; split; [apply rowMoved_stuck; split; assumption|]);
      reflexivity.
  - intros Hs d.
    apply andb_true_iff in Hs as (Hr & Hc).
    apply andb_true_iff in Hr as (R0 & Hr), Hc as (C0 & Hc).
    apply andb_true_iff in Hr as (R1 & Hr), Hc as (C1 & Hc).
    apply andb_true_iff in Hr as (R2 & Hr), Hc as (C2 & Hc).
    apply andb_true_iff in Hr as (R3 & _), Hc as (C3 & _).
    apply rowMoved_stuck in R0 as (? & ?), R1 as (? & ?), R2 as (? & ?),
      R3 as (? & ?), C0 as (? & ?), C1 as (? & ?), C2 as (? & ?), C3 as (? & ?).
    rewrite slide_flag_cells.
    destruct d;
      do 3 (apply orb_false_iff; split; [assumption|]); assumption.
Qed.

(** From one tile, the stuck rows and columns force every cell to be a
    tile different from its neighbours. *)
Ltac stuck_closure :=
  repeat match goal with
         | H : row_stuck ?a ?b ?c ?d = true, N : ?a <> 0 |- _ =>
             destruct (row_stuck_full a b c d H (or_introl N))
               as (? & ? & ? & ? & ? & ? & ?); clear H
         | H : row_stuck ?a ?b ?c ?d = true, N : ?b <> 0 |- _ =>
             destruct (row_stuck_full a b c d H (or_intror (or_introl N)))
               as (? & ? & ? & ? & ? & ? & ?); clear H
         | H : row_stuck ?a ?b ?c ?d = true, N : ?c <> 0 |- _ =>
             destruct (row_stuck_full a b c d H (or_intror (or_intror (or_introl N))))
               as (? & ? & ? & ? & ? & ? & ?); clear H
         | H : row_stuck ?a ?b ?c ?d = true, N : ?d <> 0 |- _ =>
             destruct (row_stuck_full a b c d H (or_intror (or_intror (or_intror N))))
               as (? & ? & ? & ? & ? & ? & ?); clear H
         end.

Lemma lines_stuck_cells a b c d e f g h i j k l m n o p :
  a <> 0 \/ b <> 0 \/ c <> 0 \/ d <> 0 \/ e <> 0 \/ f <> 0 \/ g <> 0 \/ h <> 0 \/
  i <> 0 \/ j <> 0 \/ k <> 0 \/ l <> 0 \/ m <> 0 \/ n <> 0 \/ o <> 0 \/ p <> 0 ->
  row_stuck a b c d = true -> row_stuck e f g h = true ->
  row_stuck i j k l = true -> row_stuck m n o p = true ->
  row_stuck a e i m = true -> row_stuck b f j n = true ->
  row_stuck c g k o = true -> row_stuck d h l p = true ->
  isGameOver [[a; b; c; d]; [e; f; g; h]; [i; j; k; l]; [m; n; o; p]] = true.
Proof.
  intros Ht R0 R1 R2 R3 C0 C1 C2 C3.
  assert (Hall :
    (a <> 0 /\ b <> 0 /\ c <> 0 /\ d <> 0) /\ (e <> 0 /\ f <> 0 /\ g <> 0 /\ h <> 0) /\
    (i <> 0 /\ j <> 0 /\ k <> 0 /\ l <> 0) /\ (m <> 0 /\ n <> 0 /\ o <> 0 /\ p <> 0) /\
    (a <> b /\ b <> c /\ c <> d) /\ (e <> f /\ f <> g /\ g <> h) /\
    (i <> j /\ j <> k /\ k <> l) /\ (m <> n /\ n <> o /\ o <> p) /\
    (a <> e /\ e <> i /\ i <> m) /\ (b <> f /\ f <> j /\ j <> n) /\
    (c <> g /\ g <> k /\ k <> o) /\ (d <> h /\ h <> l /\ l <> p)).
  { repeat (destruct Ht as [Ht|Ht]; [stuck_closure; repeat split; assumption|]).
    stuck_closure; repeat split; assumption. }
  clear Ht R0 R1 R2 R3 C0 C1 C2 C3.
  destruct Hall as ((?&?&?&?) & (?&?&?&?) & (?&?&?&?) & (?&?&?&?) &
                    (?&?&?) & (?&?&?) & (?&?&?) & (?&?&?) &
                    (?&?&?) & (?&?&?) & (?&?&?) & (?&?&?)).
  unfold isGameOver, blocked_at, indices, BOARD_SIZE, cell.
  cbn [seq forallb nth Nat.add Nat.sub Nat.ltb Nat.leb].
  repeat match goal with
         | H : ?x <> ?y |- _ => rewrite (proj2 (Z.eqb_neq x y) H); clear H
         end.
  reflexivity.
Qed.

Lemma lines_stuck_over g :
  wf_grid g = true -> has_tile g ->
  lines_stuck g = true -> isGameOver g = true.
Proof.
  intros H (i & j & Hi & Hj & Ht) Hs. grid_cells g H.
  unfold lines_stuck, indices, BOARD_SIZE, cell in Hs. cbn [seq forallb nth] in Hs.
  rewrite !andb_true_iff in Hs.
  destruct Hs as ((R0 & R1 & R2 & R3 & _) & (C0 & C1 & C2 & C3 & _)).
  apply lines_stuck_cells; try assumption.
  unfold cell in Ht.
  index4 i Hi; index4 j Hj; cbn [nth] in Ht; auto 20.
Qed.

Lemma over_lines_stuck g :
  wf_grid g = true -> isGameOver g = true -> lines_stuck g = true.
Proof.
  intros H Ho. apply isGameOver_iff in Ho as (Hz & Hh & Hv).
  unfold lines_stuck, indices, BOARD_SIZE. cbn [seq forallb].
  rewrite !andb_true_iff.
  repeat split; apply row_stuck_intro;
    first [ apply Hz; lia
          | apply (Hh _ 0%nat); lia | apply (Hh _ 1%nat); lia | apply (Hh _ 2%nat); lia
          | apply (Hv 0%nat); lia | apply (Hv 1%nat); lia | apply (Hv 2%nat); lia ].
Qed.

Lemma isGameOver_no_slide g :
  wf_grid g = true -> has_tile g ->
  (isGameOver g = true <-> forall d, snd (slide d g) = false).
Proof.
  intros H Ht. rewrite no_slide_lines by assumption. split.
  - now apply over_lines_stuck.
  - now apply lines_stuck_over.
Qed.

Lemma direction_letter d :
  exists c, direction_of c = Some d.
Proof.
  destruct d; [exists "L"%char | exists "R"%char | exists "U"%char | exists "D"%char];
    reflexivity.
Qed.

Lemma no_move_no_slide {Rng : Type} (choose : Z -> Z -> Rng -> Z * Rng) b s :
  (forall c, fst (fst (move choose c b s)) = false) <->
  (forall d, snd (slide d (grid b)) = false).
Proof.
  split.
  - intros H d. destruct (direction_letter d) as (c & E).
    rewrite <- (move_flag choose c d b s E). apply H.
  - intros H c. destruct (direction_of c) as [d|] eqn:E.
    + rewrite (move_flag choose c d b s E). apply H.
    + now rewrite move_unrecognised.
Qed.

(** ** A board never loses its last tile *)

Lemma slideRow_first_tile a b c d :
  a <> 0 \/ b <> 0 \/ c <> 0 \/ d <> 0 ->
  nth 0 (slideRow [a; b; c; d]) 0 <> 0.
Proof. row_unfold; zcases; lia. Qed.

Lemma has_tile_map_slideRow g :
  wf_grid g = true -> has_tile g -> has_tile (map slideRow g).
Proof.
  intros H (i & j & Hi & Hj & Ht). grid_cells g H. unfold cell in Ht.
  exists i, 0%nat. split; [assumption|]. split; [lia|].
  unfold cell.
  index4 i Hi; cbn [map nth] in *; apply slideRow_first_tile;
    index4 j Hj; cbn [nth] in Ht; auto.
Qed.

Lemma has_tile_slide d g :
  wf_grid g = true -> has_tile g -> has_tile (fst (slide d g)).
Proof.
  intros H Ht. rewrite slide_frame by assumption. cbn [fst].
  apply some_cell_from_frame.
  - apply map_slideRow_wf, to_frame_wf, H.
  - apply has_tile_map_slideRow; [apply to_frame_wf, H|].
    now apply some_cell_to_frame.
Qed.

Lemma has_tile_set_cell g i j v :
  wf_grid g = true -> (i < 4)%nat -> (j < 4)%nat ->
  cell g i j = 0 -> has_tile g -> has_tile (set_cell g i j v).
Proof.
  intros H Hi Hj Hz (i' & j' & Hi' & Hj' & Ht).
  exists i', j'. repeat split; auto.
  rewrite cell_set_cell_other; auto. congruence.
Qed.

Section Tiles.

Context {Rng : Type} (choose : Z -> Z -> Rng -> Z * Rng).
Hypothesis contract : in_range choose.

Lemma has_tile_addRandomPiece b s :
  wf_grid (grid b) = true -> has_tile (grid b) ->
  has_tile (grid (fst (addRandomPiece choose b s))).
Proof.
  intros H Ht.
  destruct (addRandomPiece_cases choose contract b s)
    as [(_ & ->) | (i & j & v & Hi & Hj & Hz & Hv & ->)]; [assumption|].
  now apply has_tile_set_cell.
Qed.

Lemma has_tile_move c b s :
  wf_grid (grid b) = true -> has_tile (grid b) ->
  has_tile (grid (snd (fst (move choose c b s)))).
Proof.
  intros H Ht. unfold move.
  destruct (direction_of c) as [d|]; [|assumption].
  pose proof (slide_wf d (grid b) H) as Hw.
  pose proof (has_tile_slide d (grid b) H Ht) as Ht'.
  destruct (slide d (grid b)) as [g' m]. cbn [fst] in Hw, Ht'.
  destruct m; [|assumption].
  pose proof (has_tile_addRandomPiece (mkBoard g' (winTarget b)) s Hw Ht') as Ha.
  now destruct (addRandomPiece choose _ s).
Qed.

Lemma reachable_has_tile mode b :
  reachable choose mode b -> has_tile (grid b).
Proof.
  induction 1 as [s | b c s Hr IH].
  - destruct (Board_init_two_cells choose contract mode s)
      as (i1 & j1 & v1 & i2 & j2 & v2 & Hi1 & Hj1 & Hi2 & Hj2 & Hv1 & Hv2 & Hne & ->).
    exists i2, j2. repeat split; auto. cbn [grid].
    rewrite cell_set_cell_same; auto using set_cell_wf. destruct Hv2; lia.
  - apply has_tile_move; [|assumption].
    now apply (reachable_inv choose contract mode b).
Qed.

End Tiles.

(* ================================================================= *)
(** * Game over (C3) *)

(** C3: for every 4x4 board, [isGameOver] returns true exactly when no
    cell is empty, no cell equals its right neighbour and no cell equals
    the cell below it; and on every board a [Board] object can hold
    (every reachable board holds at least one tile, last conjunct) this
    is so exactly when no call of [move], whatever the direction,
    returns true.  The direction from [isGameOver] to "no move" needs no
    tile at all. *)
Theorem isGameOver_spec {Rng : Type}
    (choose : Z -> Z -> Rng -> Z * Rng) (b : Board) (s : Rng) :
  wf_grid (grid b) = true ->
  (isGameOver (grid b) = true <->
   (forall i j, (i < 4)%nat -> (j < 4)%nat -> cell (grid b) i j <> 0) /\
   (forall i j, (i < 4)%nat -> (j < 3)%nat ->
      cell (grid b) i j <> cell (grid b) i (j + 1)) /\
   (forall i j, (i < 3)%nat -> (j < 4)%nat ->
      cell (grid b) i j <> cell (grid b) (i + 1) j)) /\
  (isGameOver (grid b) = true ->
   forall c, fst (fst (move choose c b s)) = false) /\
  (has_tile (grid b) ->
   (isGameOver (grid b) = true <->
    forall c, fst (fst (move choose c b s)) = false)) /\
  (forall mode, in_range choose -> reachable choose mode b -> has_tile (grid b)).
Proof.
  intros H. split; [apply isGameOver_iff|]. split; [|split].
  - intros Ho. apply no_move_no_slide.
    apply no_slide_lines; [assumption|]. now apply over_lines_stuck.
  - intros Ht. rewrite no_move_no_slide. now apply isGameOver_no_slide.
  - intros mode contract Hr. now apply (reachable_has_tile choose contract mode).
Qed.

Lemma isGameOver_spec_witness :
  wf_grid full_grid = true /\ has_tile full_grid /\
  (isGameOver full_grid = true <->
   forall c, fst (fst (move counterRng c (mkBoard full_grid 512) 0)) = false).
Proof.
  assert (Ht : has_tile full_grid).
  { exists 0%nat, 0%nat. split; [lia|]. split; [lia | discriminate]. }
  split; [reflexivity|]. split; [exact Ht|].
  exact (proj1 (proj2 (proj2
    (isGameOver_spec counterRng (mkBoard full_grid 512) 0 eq_refl))) Ht).
Defined.

(** Why the tile is asked for: the grid of sixteen zeros, which exists
    only inside the constructor before its two spawns, is changed by no
    direction and yet is not game over. *)
Lemma isGameOver_before_spawns :
  isGameOver blank = false /\
  forall c, fst (fst (move counterRng c (mkBoard blank 256) 0)) = false.
Proof.
  split; [reflexivity|].
  apply no_move_no_slide. intros d. destruct d; reflexivity.
Qed.

(* ================================================================= *)
(** * Sliding twice *)

Lemma adjacent_pair_iff r :
  wf_row r = true ->
  (adjacent_pair r = true <->
   exists j, (j < 3)%nat /\ nth j r 0 <> 0 /\ nth j r 0 = nth (j + 1) r 0).
Proof.
  intros H. destruct (wf_row_inv r H) as (w & x & y & z & ->).
  unfold adjacent_pair. rewrite !orb_true_iff, !andb_true_iff, !negb_true_iff.
  rewrite !Z.eqb_neq, !Z.eqb_eq. split.
  - intros [[(N & E) | (N & E)] | (N & E)];
      [exists 0%nat | exists 1%nat | exists 2%nat]; repeat split; auto; lia.
  - intros (j & Hj & N & E).
    assert (Hc : j = 0%nat \/ j = 1%nat \/ j = 2%nat) by lia.
    destruct Hc as [-> | [-> | ->]]; cbn [nth Nat.add] in *; auto.
Qed.

Lemma pair_in_row_rows g :
  wf_grid g = true -> (pair_in_row g <-> existsb adjacent_pair g = true).
Proof.
  intros H.
  destruct (wf_grid_inv g H) as (r0 & r1 & r2 & r3 & -> & W0 & W1 & W2 & W3).
  rewrite existsb_four, !orb_true_iff.
  rewrite !adjacent_pair_iff by assumption. unfold pair_in_row, cell. split.
  - intros (i & j & Hi & Hj & N & E).
    index4 i Hi; cbn [nth] in *; eauto 8.
  - intros [(j & ?) | [(j & ?) | [(j & ?) | (j & ?)]]];
      [exists 0%nat | exists 1%nat | exists 2%nat | exists 3%nat];
      exists j; (split; [lia | assumption]).
Qed.

Lemma pair_along_from_frame d g :
  wf_grid g = true -> (pair_along d (from_frame d g) <-> pair_in_row g).
Proof.
  intros H. destruct d; cbn [pair_along from_frame]; [reflexivity| | |].
  - (* Right: a half turn *)
    pose proof (rotateBoard_wf true g H) as H1.
    split; intros (i & j & Hi & Hj & N & E).
    + rewrite !cell_rotate_ccw in N by (auto; lia).
      rewrite !cell_rotate_ccw in E by (auto; lia).
      exists (3 - i)%nat, (2 - j)%nat.
      replace (3 - (j + 1))%nat with (2 - j)%nat in E by lia.
      replace (2 - j + 1)%nat with (3 - j)%nat by lia.
      repeat split; try lia; congruence.
    + exists (3 - i)%nat, (2 - j)%nat.
      rewrite !cell_rotate_ccw by (auto; lia).
      replace (3 - (3 - i))%nat with i by lia.
      replace (3 - (2 - j))%nat with (j + 1)%nat by lia.
      replace (3 - (2 - j + 1))%nat with j by lia.
      repeat split; try lia; congruence.
  - (* Up: back by a clockwise turn *)
    split; intros (i & j & Hi & Hj & N & E).
    + rewrite !cell_rotate_cw in N by (auto; lia).
      rewrite !cell_rotate_cw in E by (auto; lia).
      exists (3 - j)%nat, i. repeat split; try lia; assumption.
    + exists j, (3 - i)%nat.
      rewrite !cell_rotate_cw by (auto; lia).
      replace (3 - (3 - i))%nat with i by lia.
      repeat split; try lia; assumption.
  - (* Down: back by a counter-clockwise turn *)
    split; intros (i & j & Hi & Hj & N & E).
    + rewrite !cell_rotate_ccw in N by (auto; lia).
      rewrite !cell_rotate_ccw in E by (auto; lia).
      exists j, (2 - i)%nat.
      replace (3 - (i + 1))%nat with (2 - i)%nat in E by lia.
      replace (2 - i + 1)%nat with (3 - i)%nat by lia.
      repeat split; try lia; congruence.
    + exists (2 - j)%nat, i.
      rewrite !cell_rotate_ccw by (auto; lia).
      replace (3 - (2 - j))%nat with (j + 1)%nat by lia.
      replace (3 - (2 - j + 1))%nat with j by lia.
      repeat split; try lia; congruence.
Qed.

Lemma rows_moved_again g :
  wf_grid g = true ->
  existsb rowMoved (map slideRow g) = existsb adjacent_pair (map slideRow g).
Proof.
  intros H. grid_cells g H. cbn [map].
  now rewrite !existsb_four, !rowMoved_again.
Qed.

Lemma slide_again d g :
  wf_grid g = true ->
  snd (slide d (fst (slide d g))) =
  existsb adjacent_pair (map slideRow (to_frame d g)).
Proof.
  intros H.
  pose proof (map_slideRow_wf _ (to_frame_wf d g H)) as Hw.
  rewrite (slide_frame d g H). cbn [fst].
  rewrite slide_frame by (now apply from_frame_wf). cbn [snd].
  rewrite to_from_frame by assumption.
  apply rows_moved_again. now apply to_frame_wf.
Qed.

Lemma slide_again_pair d g :
  wf_grid g = true ->
  (snd (slide d (fst (slide d g))) = true <-> pair_along d (fst (slide d g))).
Proof.
  intros H.
  pose proof (map_slideRow_wf _ (to_frame_wf d g H)) as Hw.
  rewrite slide_again by assumption.
  rewrite <- pair_in_row_rows by assumption.
  rewrite (slide_frame d g H). cbn [fst].
  symmetry. now apply pair_along_from_frame.
Qed.

(* ================================================================= *)
(** * Sliding twice (C2) *)

(** C2, as the code has it: for every 4x4 grid and direction, a second
    slide straight after the first (no spawn in between) reports a
    change exactly when the first result holds two equal non-zero
    neighbours along the axis of the move, which it then merges; it
    reports a change exactly when it changes the grid; and after a
    slide that reported no change the second one changes nothing and
    reports no change. *)
Theorem slide_twice (d : Direction) (g : Grid) :
  wf_grid g = true ->
  let g1 := fst (slide d g) in
  (snd (slide d g1) = true <-> pair_along d g1) /\
  (snd (slide d g1) = true <-> fst (slide d g1) <> g1) /\
  (~ pair_along d g1 -> slide d g1 = (g1, false)) /\
  (snd (slide d g) = false -> slide d g1 = (g1, false)).
Proof.
  intros H g1. pose proof (slide_wf d g H) as Hw. fold g1 in Hw.
  split; [now apply slide_again_pair|].
  split; [now apply slide_moved_iff|]. split.
  - intros Hn.
    assert (Hf : snd (slide d g1) = false).
    { destruct (snd (slide d g1)) eqn:E; [|reflexivity].
      exfalso. apply Hn. now apply slide_again_pair. }
    pose proof (proj1 (slide_unmoved_iff d g1 Hw) Hf) as Hg.
    destruct (slide d g1) as [g2 m]. cbn [fst snd] in *.
    now rewrite Hf, Hg.
  - intros Hf.
    pose proof (proj1 (slide_unmoved_iff d g H) Hf) as Hg. fold g1 in Hg.
    rewrite Hg. subst g1. destruct (slide d g) as [g2 m]. cbn [fst snd] in *.
    now rewrite Hf, Hg.
Qed.

Lemma slide_twice_witness :
  wf_grid sample_grid = true /\
  (snd (slide DDown (fst (slide DDown sample_grid))) = true <->
   pair_along DDown (fst (slide DDown sample_grid))).
Proof.
  split; [reflexivity|].
  exact (proj1 (slide_twice DDown sample_grid eq_refl)).
Defined.

(** The row 2 2 2 2 slides left to 4 4 0 0, and a second slide left
    merges the two 4s: the second application changes the grid and
    reports the change. *)
Lemma slide_twice_counterexample :
  wf_grid twos_grid = true /\
  slide DLeft twos_grid =
    ([[4; 4; 0; 0]; [0; 0; 0; 0]; [0; 0; 0; 0]; [0; 0; 0; 0]], true) /\
  slide DLeft (fst (slide DLeft twos_grid)) =
    ([[8; 0; 0; 0]; [0; 0; 0; 0]; [0; 0; 0; 0]; [0; 0; 0; 0]], true) /\
  slide DLeft (fst (slide DLeft twos_grid)) <> (fst (slide DLeft twos_grid), false).
Proof.
  split; [reflexivity|]. split; [reflexivity|]. split; [reflexivity|].
  discriminate.
Qed.

(* ================================================================= *)
(** * What a slide does to the tiles of a row *)

Lemma zsum_app l1 l2 : zsum (l1 ++ l2) = zsum l1 + zsum l2.
Proof. induction l1 as [|x t IH]; simpl; [reflexivity | rewrite IH; lia]. Qed.

Lemma zsum_repeat_0 n : zsum (repeat 0 n) = 0.
Proof. induction n as [|n IH]; simpl; [reflexivity | now rewrite IH]. Qed.

Lemma zsum_nonzero r : zsum (filter nonzero r) = zsum r.
Proof.
  induction r as [|x t IH]; simpl; [reflexivity|]. unfold nonzero at 1.
  destruct (Z.eqb_spec x 0); simpl; rewrite IH; lia.
Qed.

Lemma zsum_concat bs : zsum (map zsum bs) = zsum (concat bs).
Proof.
  induction bs as [|B t IH]; simpl; [reflexivity|]. now rewrite zsum_app, IH.
Qed.

Lemma chain_nonempty B : chain B -> B <> [].
Proof. intros [v Hv | B' HB]; [discriminate | now destruct B']. Qed.

Lemma chain_hd_snoc B x : chain B -> hd 0 (B ++ [x]) = hd 0 B.
Proof. intros H. apply chain_nonempty in H. now destruct B. Qed.

Lemma chain_sum B :
  chain B -> zsum B = hd 0 B * 2 ^ (Z.of_nat (length B) - 1).
Proof.
  induction 1 as [v Hv | B HB IH].
  - simpl. lia.
  - rewrite zsum_app, chain_hd_snoc, length_app by assumption. simpl.
    rewrite Z.add_0_r, IH.
    assert (Hl : (0 < length B)%nat).
    { apply chain_nonempty in HB. destruct B; [contradiction | simpl; lia]. }
    replace (Z.of_nat (length B + 1) - 1) with (Z.succ (Z.of_nat (length B) - 1)) by lia.
    rewrite Z.pow_succ_r by lia. lia.
Qed.

Lemma greedy_snoc bs B :
  greedy bs -> (bs = [] \/ hd 0 B <> zsum (last bs [])) -> greedy (bs ++ [B]).
Proof.
  induction bs as [|B1 t IH]; intros Hg Hl; [exact I|].
  destruct t as [|B2 t'].
  - simpl. split; [|exact I]. destruct Hl as [Hl|Hl]; [discriminate | exact Hl].
  - destruct Hg as (Hh & Hg').
    change ((B1 :: B2 :: t') ++ [B]) with (B1 :: ((B2 :: t') ++ [B])).
    change (greedy (B1 :: ((B2 :: t') ++ [B])))
      with (hd 0 B2 <> zsum B1 /\ greedy ((B2 :: t') ++ [B])).
    split; [exact Hh|]. apply IH; [exact Hg'|].
    right. destruct Hl as [Hl|Hl]; [discriminate | exact Hl].
Qed.

Lemma greedy_last_grows bs B B' :
  greedy (bs ++ [B]) -> hd 0 B' = hd 0 B -> greedy (bs ++ [B']).
Proof.
  induction bs as [|B1 t IH]; intros Hg Hh; [exact I|].
  destruct t as [|B2 t'].
  - simpl in *. split; [|exact I]. rewrite Hh. tauto.
  - change ((B1 :: B2 :: t') ++ [B]) with (B1 :: ((B2 :: t') ++ [B])) in Hg.
    change ((B1 :: B2 :: t') ++ [B']) with (B1 :: ((B2 :: t') ++ [B'])).
    change (greedy (B1 :: ((B2 :: t') ++ [B])))
      with (hd 0 B2 <> zsum B1 /\ greedy ((B2 :: t') ++ [B])) in Hg.
    change (greedy (B1 :: ((B2 :: t') ++ [B'])))
      with (hd 0 B2 <> zsum B1 /\ greedy ((B2 :: t') ++ [B'])).
    destruct Hg as (Hd & Hg'). split; [exact Hd|]. now apply IH.
Qed.

Lemma combine_snoc r x : combine (r ++ [x]) = combine_step (combine r) x.
Proof. unfold combine. now rewrite fold_left_app. Qed.

(** The invariant of the "combine and slide" loop: the emitted values
    are the sums of consecutive runs of the non-zero cells read so far. *)
Lemma combine_blocks r :
  exists bs,
    concat bs = filter nonzero r /\ Forall chain bs /\ greedy bs /\
    fst (combine r) = map zsum bs.
Proof.
  induction r as [|x r IH] using rev_ind.
  - exists []. repeat split; constructor.
  - destruct IH as (bs & Hc & Hch & Hg & Hm).
    rewrite combine_snoc, filter_app.
    destruct (combine r) as [nr m] eqn:Ec. cbn [fst] in Hm. subst nr.
    unfold combine_step. simpl filter. unfold nonzero at 2.
    destruct (Z.eqb_spec x 0) as [Hx|Hx]; cbn [negb].
    { exists bs. rewrite app_nil_r. auto. }
    destruct (negb (empty (map zsum bs)) && (back (map zsum bs) =? x)) eqn:Et.
    + apply andb_true_iff in Et as (Hne & Hb). apply Z.eqb_eq in Hb.
      destruct bs as [|B bs' _] using rev_ind; [discriminate|].
      rewrite map_app in *. cbn [map] in *.
      unfold back in *. rewrite last_last in *.
      apply Forall_app in Hch as (Hch' & HB). inversion HB as [|? ? HcB _]; subst.
      exists (bs' ++ [B ++ [zsum B]]). repeat split.
      * rewrite !concat_app in *. simpl in *. rewrite !app_nil_r in *.
        now rewrite app_assoc, Hc.
      * apply Forall_app. split; [assumption|].
        constructor; [now apply chain_snoc | constructor].
      * apply (greedy_last_grows _ B); [assumption | now apply chain_hd_snoc].
      * cbn [fst]. unfold set_back. rewrite removelast_last, map_app. cbn [map].
        rewrite zsum_app. simpl. f_equal. f_equal. lia.
    + exists (bs ++ [[x]]). repeat split.
      * rewrite concat_app. simpl. now rewrite Hc.
      * apply Forall_app. split; [assumption|].
        constructor; [now apply chain_one | constructor].
      * apply greedy_snoc; [assumption|].
        destruct bs as [|B bs' _] using rev_ind; [now left | right].
        rewrite map_app in Et. cbn [map] in Et. unfold back in Et.
        rewrite last_last in Et. rewrite last_last. cbn [hd].
        destruct (map zsum bs' ++ [zsum B]) eqn:En;
          [now destruct (map zsum bs')|].
        cbn [empty negb andb] in Et. apply Z.eqb_neq in Et. congruence.
      * cbn [fst]. unfold push_back. rewrite map_app. simpl.
        now rewrite Z.add_0_r.
Qed.

Lemma slideRow_blocks r :
  exists bs,
    concat bs = filter nonzero r /\ Forall chain bs /\ greedy bs /\
    slideRow r = pad (map zsum bs).
Proof.
  destruct (combine_blocks r) as (bs & Hc & Hch & Hg & Hm).
  exists bs. unfold slideRow. rewrite Hm. auto.
Qed.

(** A slide keeps the sum of the row. *)
Lemma slideRow_sum r : zsum (slideRow r) = zsum r.
Proof.
  destruct (slideRow_blocks r) as (bs & Hc & _ & _ & ->).
  unfold pad. rewrite zsum_app, zsum_repeat_0, zsum_concat, Hc, zsum_nonzero. lia.
Qed.

(* ================================================================= *)
(** * Merging in a slide to the left (C1) *)

(** C1, as the code has it: in every row of a 4x4 grid, the slide to
    the left cuts the non-zero cells, in order, into consecutive runs,
    each run [v, v, 2v, 4v, ...] being a first value followed by values
    each equal to the sum of the run before it, and each run as long as
    it can be; the new row is the sums of the runs, padded with zeros.
    So each incoming value is absorbed into the previous emitted value
    or emitted as new, once; but an emitted value that came from a
    merge merges again when the next value equals it: 2 2 4 0 slides to
    8 0 0 0, while 2 2 2 0 slides to 4 2 0 0 and 0 0 4 4 to 8 0 0 0. *)
Theorem slide_left_runs (g : Grid) (i : nat) :
  wf_grid g = true -> (i < 4)%nat ->
  (exists bs : list (list Z),
     concat bs = filter nonzero (nth i g []) /\
     Forall chain bs /\
     Forall (fun B => zsum B = hd 0 B * 2 ^ (Z.of_nat (length B) - 1)) bs /\
     greedy bs /\
     nth i (fst (slidePiecesLeft g)) [] = pad (map zsum bs)) /\
  slidePiecesLeft [[2; 2; 2; 0]; [0; 0; 4; 4]; [2; 2; 4; 0]; [4; 2; 2; 0]] =
    ([[4; 2; 0; 0]; [8; 0; 0; 0]; [8; 0; 0; 0]; [4; 4; 0; 0]], true).
Proof.
  intros H Hi. split; [|reflexivity].
  rewrite slidePiecesLeft_rows by assumption. cbn [fst].
  destruct (slideRow_blocks (nth i g [])) as (bs & Hc & Hch & Hg & Hs).
  exists bs. repeat split; auto.
  - eapply Forall_impl; [|exact Hch]. intros B HB. now apply chain_sum.
  - rewrite <- Hs.
    destruct (wf_grid_inv g H) as (r0 & r1 & r2 & r3 & -> & _).
    index4 i Hi; reflexivity.
Qed.

Lemma slide_left_runs_witness :
  wf_grid cascade_grid = true /\ (0 < 4)%nat /\
  exists bs : list (list Z),
    concat bs = filter nonzero (nth 0 cascade_grid []) /\
    Forall chain bs /\
    Forall (fun B => zsum B = hd 0 B * 2 ^ (Z.of_nat (length B) - 1)) bs /\
    greedy bs /\
    nth 0 (fst (slidePiecesLeft cascade_grid)) [] = pad (map zsum bs).
Proof.
  split; [reflexivity|]. split; [lia|].
  exact (proj1 (slide_left_runs cascade_grid 0 eq_refl ltac:(lia))).
Defined.

(** The row 2 2 4 0: the first two cells merge into a 4, and that 4,
    produced by a merge of this pass, merges again with the third cell.
    The word-for-word reading of the specification gives 4 4 0 0, and
    no cutting of 2 2 4 into runs of at most two tiles sums to the
    single 8 the code emits. *)
Lemma slide_left_runs_counterexample :
  wf_grid cascade_grid = true /\
  slidePiecesLeft cascade_grid =
    ([[8; 0; 0; 0]; [0; 0; 0; 0]; [0; 0; 0; 0]; [0; 0; 0; 0]], true) /\
  slideRow_once [2; 2; 4; 0] = [4; 4; 0; 0] /\
  nth 0 (fst (slidePiecesLeft cascade_grid)) [] <> slideRow_once (nth 0 cascade_grid []) /\
  ~ (exists bs : list (list Z),
       concat bs = filter nonzero (nth 0 cascade_grid []) /\
       Forall (fun B => (length B <= 2)%nat) bs /\
       nth 0 (fst (slidePiecesLeft cascade_grid)) [] = pad (map zsum bs)).
Proof.
  split; [reflexivity|]. split; [reflexivity|]. split; [reflexivity|].
  split; [discriminate|].
  intros (bs & Hc & Hl & Hs).
  change (nth 0 (fst (slidePiecesLeft cascade_grid)) []) with [8; 0; 0; 0] in Hs.
  change (filter nonzero (nth 0 cascade_grid [])) with [2; 2; 4] in Hc.
  destruct bs as [|B1 [|B2 [|B3 [|B4 t]]]].
  - discriminate Hc.
  - simpl in Hc. rewrite app_nil_r in Hc. subst B1.
    inversion Hl as [|? ? Hl1 _]. simpl in Hl1. lia.
  - (* two runs sum to 8 and 0 *)
    inversion Hl as [|? ? Hl1 Hl']. inversion Hl' as [|? ? Hl2 _]. subst.
    simpl in Hc. rewrite app_nil_r in Hc.
    unfold pad in Hs. simpl in Hs. injection Hs as H8 H0.
    destruct B1 as [|a [|b [|c t1]]]; simpl in *; try lia;
      destruct B2 as [|a' [|b' [|c' t2]]]; simpl in *; try lia;
      try discriminate Hc; injection Hc; intros; subst; simpl in *; lia.
  - inversion Hl as [|? ? Hl1 Hl']. inversion Hl' as [|? ? Hl2 Hl''].
    inversion Hl'' as [|? ? Hl3 _]. subst.
    simpl in Hc. rewrite app_nil_r in Hc.
    unfold pad in Hs. simpl in Hs. injection Hs as H8 H0 H0'.
    destruct B1 as [|a [|b [|c t1]]]; simpl in *; try lia;
      destruct B2 as [|a' [|b' [|c' t2]]]; simpl in *; try lia;
      destruct B3 as [|a'' [|b'' [|c'' t3]]]; simpl in *; try lia;
      try discriminate Hc; injection Hc; intros; subst; simpl in *; lia.
  - unfold pad in Hs. simpl in Hs.
    destruct t; simpl in Hs.
    + inversion Hl as [|? ? Hl1 Hl']. inversion Hl' as [|? ? Hl2 Hl''].
      inversion Hl'' as [|? ? Hl3 Hl3']. inversion Hl3' as [|? ? Hl4 _]. subst.
      simpl in Hc. rewrite app_nil_r in Hc.
      injection Hs as H8 Ha Hb Hd.
      destruct B1 as [|a [|b [|c t1]]]; simpl in *; try lia;
        destruct B2 as [|a' [|b' [|c' t2]]]; simpl in *; try lia;
        destruct B3 as [|a'' [|b'' [|c'' t3]]]; simpl in *; try lia;
        destruct B4 as [|a3 [|b3 [|c3 t4]]]; simpl in *; try lia;
        try discriminate Hc; injection Hc; intros; subst; simpl in *; lia.
    + discriminate Hs.
Qed.

(* ================================================================= *)
(** * The size of the cells *)

Lemma grid_sum_rotate ccw g :
  wf_grid g = true -> grid_sum (rotateBoard ccw g) = grid_sum g.
Proof.
  intros H. grid_cells g H.
  destruct ccw; [rewrite rotateBoard_ccw_cells | rewrite rotateBoard_cw_cells];
    unfold grid_sum; simpl; lia.
Qed.

Lemma grid_sum_map_slideRow g : grid_sum (map slideRow g) = grid_sum g.
Proof.
  unfold grid_sum. induction g as [|r t IH]; simpl; [reflexivity|].
  now rewrite slideRow_sum, IH.
Qed.

Lemma grid_sum_to_frame d g :
  wf_grid g = true -> grid_sum (to_frame d g) = grid_sum g.
Proof.
  intros H. destruct d; cbn [to_frame].
  - reflexivity.
  - rewrite grid_sum_rotate by (apply rotateBoard_wf, H).
    now apply grid_sum_rotate.
  - now apply grid_sum_rotate.
  - now apply grid_sum_rotate.
Qed.

Lemma grid_sum_from_frame d g :
  wf_grid g = true -> grid_sum (from_frame d g) = grid_sum g.
Proof.
  intros H. destruct d; cbn [from_frame].
  - reflexivity.
  - rewrite grid_sum_rotate by (apply rotateBoard_wf, H).
    now apply grid_sum_rotate.
  - now apply grid_sum_rotate.
  - now apply grid_sum_rotate.
Qed.

Lemma grid_sum_slide d g :
  wf_grid g = true -> grid_sum (fst (slide d g)) = grid_sum g.
Proof.
  intros H. rewrite slide_frame by assumption. cbn [fst].
  rewrite grid_sum_from_frame by (apply map_slideRow_wf, to_frame_wf, H).
  rewrite grid_sum_map_slideRow. now apply grid_sum_to_frame.
Qed.

Lemma grid_sum_set_cell g i j v :
  wf_grid g = true -> (i < 4)%nat -> (j < 4)%nat ->
  grid_sum (set_cell g i j v) = grid_sum g - cell g i j + v.
Proof.
  intros H Hi Hj. grid_cells g H.
  index4 i Hi; index4 j Hj; unfold grid_sum, set_cell, cell; simpl; lia.
Qed.

Lemma cell_ok_nonneg v : cell_ok v -> 0 <= v.
Proof. intros [-> | (k & Hk & ->)]; [lia | apply Z.pow_nonneg; lia]. Qed.

Lemma cell_le_grid_sum g i j :
  wf_grid g = true -> grid_ok g -> (i < 4)%nat -> (j < 4)%nat ->
  0 <= cell g i j <= grid_sum g.
Proof.
  intros H Hok Hi Hj.
  assert (Hn : forall a b, (a < 4)%nat -> (b < 4)%nat -> 0 <= cell g a b)
    by (intros a b Ha Hb; apply cell_ok_nonneg, Hok; assumption).
  pose proof (Hn 0%nat 0%nat ltac:(lia) ltac:(lia)).
  pose proof (Hn 0%nat 1%nat ltac:(lia) ltac:(lia)).
  pose proof (Hn 0%nat 2%nat ltac:(lia) ltac:(lia)).
  pose proof (Hn 0%nat 3%nat ltac:(lia) ltac:(lia)).
  pose proof (Hn 1%nat 0%nat ltac:(lia) ltac:(lia)).
  pose proof (Hn 1%nat 1%nat ltac:(lia) ltac:(lia)).
  pose proof (Hn 1%nat 2%nat ltac:(lia) ltac:(lia)).
  pose proof (Hn 1%nat 3%nat ltac:(lia) ltac:(lia)).
  pose proof (Hn 2%nat 0%nat ltac:(lia) ltac:(lia)).
  pose proof (Hn 2%nat 1%nat ltac:(lia) ltac:(lia)).
  pose proof (Hn 2%nat 2%nat ltac:(lia) ltac:(lia)).
  pose proof (Hn 2%nat 3%nat ltac:(lia) ltac:(lia)).
  pose proof (Hn 3%nat 0%nat ltac:(lia) ltac:(lia)).
  pose proof (Hn 3%nat 1%nat ltac:(lia) ltac:(lia)).
  pose proof (Hn 3%nat 2%nat ltac:(lia) ltac:(lia)).
  pose proof (Hn 3%nat 3%nat ltac:(lia) ltac:(lia)).
  clear Hn Hok. grid_cells g H.
  unfold grid_sum, cell in *. cbn [nth map zsum fold_right] in *.
  index4 i Hi; index4 j Hj; cbn [nth]; lia.
Qed.

Section Size.

Context {Rng : Type} (choose : Z -> Z -> Rng -> Z * Rng).
Hypothesis contract : in_range choose.

Lemma grid_sum_addRandomPiece b s :
  wf_grid (grid b) = true ->
  grid_sum (grid (fst (addRandomPiece choose b s))) <= grid_sum (grid b) + 4.
Proof.
  intros H.
  destruct (addRandomPiece_cases choose contract b s)
    as [(_ & ->) | (i & j & v & Hi & Hj & Hz & Hv & ->)]; cbn [fst grid]; [lia|].
  rewrite grid_sum_set_cell by assumption. destruct Hv; lia.
Qed.

Lemma grid_sum_move c b s :
  wf_grid (grid b) = true ->
  grid_sum (grid (snd (fst (move choose c b s)))) <= grid_sum (grid b) + 4.
Proof.
  intros H. unfold move.
  destruct (direction_of c) as [d|]; [|cbn [fst snd]; lia].
  pose proof (slide_wf d (grid b) H) as Hw.
  pose proof (grid_sum_slide d (grid b) H) as Hs.
  destruct (slide d (grid b)) as [g' m]. cbn [fst] in Hw, Hs.
  destruct m; [|cbn [fst snd grid]; lia].
  pose proof (grid_sum_addRandomPiece (mkBoard g' (winTarget b)) s Hw) as Ha.
  destruct (addRandomPiece choose _ s). cbn [fst snd grid] in *. lia.
Qed.

Lemma grid_sum_init mode s :
  grid_sum (grid (fst (Board_init choose mode s))) <= 8.
Proof.
  destruct (Board_init_two_cells choose contract mode s)
    as (i1 & j1 & v1 & i2 & j2 & v2 & Hi1 & Hj1 & Hi2 & Hj2 & Hv1 & Hv2 & Hne & ->).
  cbn [grid].
  rewrite !grid_sum_set_cell by auto using set_cell_wf.
  rewrite cell_set_cell_other by auto. rewrite !cell_blank.
  change (grid_sum blank) with 0. destruct Hv1, Hv2; lia.
Qed.

Lemma played_reachable mode n b :
  played choose mode n b -> reachable choose mode b.
Proof. induction 1; [apply reach_init | now apply reach_move]. Qed.

(** After [n] moves every cell lies between 0 and 8 + 4n, far inside
    the range of [int] for any game that can be played. *)
Lemma played_bound mode n b i j :
  played choose mode n b -> (i < 4)%nat -> (j < 4)%nat ->
  0 <= cell (grid b) i j <= 8 + 4 * Z.of_nat n.
Proof.
  intros Hp Hi Hj.
  assert (Hs : grid_sum (grid b) <= 8 + 4 * Z.of_nat n).
  { induction Hp as [s | n b c s Hp IH].
    - pose proof (grid_sum_init mode s). lia.
    - pose proof (played_reachable _ _ _ Hp) as Hr.
      apply (reachable_inv choose contract) in Hr as ((Hw & _) & _).
      pose proof (grid_sum_move c b s Hw). lia. }
  apply played_reachable, (reachable_inv choose contract) in Hp
    as ((Hw & Hok & _) & _).
  pose proof (cell_le_grid_sum (grid b) i j Hw Hok Hi Hj). lia.
Qed.

End Size.

(* ================================================================= *)
(** * Further properties of the engine *)

(** ** What each direction does to rows and columns *)

Lemma slideRow_cells r :
  wf_row r = true -> exists w x y z, slideRow r = [w; x; y; z].
Proof. intros H. apply wf_row_inv, slideRow_wf, H. Qed.

Lemma slide_lines_cells a b c d e f g h i j k l m n o p :
  let G := [[a; b; c; d]; [e; f; g; h]; [i; j; k; l]; [m; n; o; p]] in
  fst (slidePiecesLeft G) =
    [slideRow [a; b; c; d]; slideRow [e; f; g; h];
     slideRow [i; j; k; l]; slideRow [m; n; o; p]] /\
  fst (slidePiecesRight G) =
    [rev (slideRow [d; c; b; a]); rev (slideRow [h; g; f; e]);
     rev (slideRow [l; k; j; i]); rev (slideRow [p; o; n; m])] /\
  (forall q, (q < 4)%nat ->
     column (fst (slidePiecesUp G)) q = slideRow (column G q)) /\
  (forall q, (q < 4)%nat ->
     column (fst (slidePiecesDown G)) q = rev (slideRow (rev (column G q)))).
Proof.
  intros G. unfold G. split; [|split; [|split]].
  - now rewrite slidePiecesLeft_rows.
  - rewrite slidePiecesRight_rows by reflexivity.
    rewrite !rotateBoard_ccw_cells. cbn [map].
    destruct (slideRow_cells [d; c; b; a] eq_refl) as (w0 & x0 & y0 & z0 & ->).
    destruct (slideRow_cells [h; g; f; e] eq_refl) as (w1 & x1 & y1 & z1 & ->).
    destruct (slideRow_cells [l; k; j; i] eq_refl) as (w2 & x2 & y2 & z2 & ->).
    destruct (slideRow_cells [p; o; n; m] eq_refl) as (w3 & x3 & y3 & z3 & ->).
    now rewrite !rotateBoard_ccw_cells.
  - intros q Hq. rewrite slidePiecesUp_rows by reflexivity.
    rewrite rotateBoard_ccw_cells. cbn [map].
    assert (Hc : forall t, (t < 4)%nat ->
              column [[a; b; c; d]; [e; f; g; h]; [i; j; k; l]; [m; n; o; p]] t =
              nth t [[a; e; i; m]; [b; f; j; n]; [c; g; k; o]; [d; h; l; p]] [])
      by (intros t Ht; index4 t Ht; reflexivity).
    rewrite (Hc q Hq).
    destruct (slideRow_cells [d; h; l; p] eq_refl) as (w0 & x0 & y0 & z0 & E0).
    destruct (slideRow_cells [c; g; k; o] eq_refl) as (w1 & x1 & y1 & z1 & E1).
    destruct (slideRow_cells [b; f; j; n] eq_refl) as (w2 & x2 & y2 & z2 & E2).
    destruct (slideRow_cells [a; e; i; m] eq_refl) as (w3 & x3 & y3 & z3 & E3).
    rewrite E0, E1, E2, E3, rotateBoard_cw_cells.
    index4 q Hq; cbn [fst nth column map]; congruence.
  - intros q Hq. rewrite slidePiecesDown_rows by reflexivity.
    rewrite rotateBoard_cw_cells. cbn [map].
    assert (Hc : forall t, (t < 4)%nat ->
              rev (column [[a; b; c; d]; [e; f; g; h]; [i; j; k; l]; [m; n; o; p]] t) =
              nth t [[m; i; e; a]; [n; j; f; b]; [o; k; g; c]; [p; l; h; d]] [])
      by (intros t Ht; index4 t Ht; reflexivity).
    rewrite (Hc q Hq).
    destruct (slideRow_cells [m; i; e; a] eq_refl) as (w0 & x0 & y0 & z0 & E0).
    destruct (slideRow_cells [n; j; f; b] eq_refl) as (w1 & x1 & y1 & z1 & E1).
    destruct (slideRow_cells [o; k; g; c] eq_refl) as (w2 & x2 & y2 & z2 & E2).
    destruct (slideRow_cells [p; l; h; d] eq_refl) as (w3 & x3 & y3 & z3 & E3).
    rewrite E0, E1, E2, E3, rotateBoard_ccw_cells.
    index4 q Hq; cbn [fst nth column map];
      first [rewrite E0 | rewrite E1 | rewrite E2 | rewrite E3]; reflexivity.
Qed.

(** X1: the rotations put every direction the right way round.  On a
    4x4 grid, Left slides each row towards column 0; Right is the left
    slide of each row read backwards; Up is the left slide of each column
    read from the top; Down is the left slide of each column read from
    the bottom. *)
Theorem slide_directions (g : Grid) :
  wf_grid g = true ->
  (forall i, (i < 4)%nat ->
     nth i (fst (slidePiecesLeft g)) [] = slideRow (nth i g [])) /\
  (forall i, (i < 4)%nat ->
     nth i (fst (slidePiecesRight g)) [] = rev (slideRow (rev (nth i g [])))) /\
  (forall j, (j < 4)%nat ->
     column (fst (slidePiecesUp g)) j = slideRow (column g j)) /\
  (forall j, (j < 4)%nat ->
     column (fst (slidePiecesDown g)) j = rev (slideRow (rev (column g j)))).
Proof.
  intros H. grid_cells g H.
  destruct (slide_lines_cells x x0 x1 x2 x3 x4 x5 x6 x7 x8 x9 x10 x11 x12 x13 x14)
    as (HL & HR & HU & HD).
  split; [|split; [|split]]; auto.
  - intros i Hi. rewrite HL. index4 i Hi; reflexivity.
  - intros i Hi. rewrite HR. index4 i Hi; reflexivity.
Qed.

Lemma slide_directions_witness :
  wf_grid sample_grid = true /\
  column (fst (slidePiecesUp sample_grid)) 1 = slideRow (column sample_grid 1).
Proof.
  split; [reflexivity|].
  exact (proj1 (proj2 (proj2 (slide_directions sample_grid eq_refl))) 1%nat ltac:(lia)).
Defined.

(** ** Gaps and blocked directions *)

Lemma slideRow_compact a b c d : compact_row (slideRow [a; b; c; d]) = true.
Proof. unfold compact_row. row_unfold; zcases; try reflexivity; exfalso; lia. Qed.

Lemma rowMoved_blocked a b c d :
  rowMoved [a; b; c; d] =
  negb (compact_row [a; b; c; d] && negb (adjacent_pair [a; b; c; d])).
Proof.
  unfold compact_row, adjacent_pair.
  row_unfold; zcases; try reflexivity; exfalso; lia.
Qed.

Lemma compact_row_iff r :
  wf_row r = true ->
  (compact_row r = true <->
   forall j, (j < 3)%nat -> nth j r 0 = 0 -> nth (j + 1) r 0 = 0).
Proof.
  intros H. destruct (wf_row_inv r H) as (w & x & y & z & ->).
  unfold compact_row.
  rewrite !andb_true_iff, !orb_true_iff, !negb_true_iff, !Z.eqb_neq, !Z.eqb_eq.
  split.
  - intros ((H0 & H1) & H2) j Hj Hz.
    assert (Hc : j = 0%nat \/ j = 1%nat \/ j = 2%nat) by lia.
    destruct Hc as [-> | [-> | ->]]; cbn [nth Nat.add] in *; tauto.
  - intros Hf.
    pose proof (Hf 0%nat ltac:(lia)) as H0.
    pose proof (Hf 1%nat ltac:(lia)) as H1.
    pose proof (Hf 2%nat ltac:(lia)) as H2.
    cbn [nth Nat.add] in *.
    destruct (Z.eq_dec w 0), (Z.eq_dec x 0), (Z.eq_dec y 0); tauto.
Qed.

Lemma flush_left_rows g :
  wf_grid g = true -> (flush DLeft g <-> forallb compact_row g = true).
Proof.
  intros H.
  destruct (wf_grid_inv g H) as (r0 & r1 & r2 & r3 & -> & W0 & W1 & W2 & W3).
  cbn [forallb flush]. rewrite !andb_true_iff.
  rewrite !compact_row_iff by assumption. unfold cell. split.
  - intros Hf. repeat split; try reflexivity; intros j Hj.
    + apply (Hf 0%nat j); lia.
    + apply (Hf 1%nat j); lia.
    + apply (Hf 2%nat j); lia.
    + apply (Hf 3%nat j); lia.
  - intros (H0 & H1 & H2 & H3 & _) i j Hi Hj.
    index4 i Hi; cbn [nth]; auto.
Qed.

Lemma flush_from_frame d g :
  wf_grid g = true -> (flush d (from_frame d g) <-> flush DLeft g).
Proof.
  intros H. destruct d; cbn [flush from_frame]; [reflexivity| | |].
  - pose proof (rotateBoard_wf true g H) as H1.
    split; intros Hf i j Hi Hj Hz.
    + specialize (Hf (3 - i)%nat (2 - j)%nat ltac:(lia) ltac:(lia)).
      rewrite !cell_rotate_ccw in Hf by (auto; lia).
      replace (3 - (3 - i))%nat with i in Hf by lia.
      replace (3 - (2 - j + 1))%nat with j in Hf by lia.
      replace (3 - (2 - j))%nat with (j + 1)%nat in Hf by lia.
      auto.
    + rewrite !cell_rotate_ccw in * by (auto; lia).
      replace (3 - (j + 1))%nat with (2 - j)%nat in Hz by lia.
      replace (3 - j)%nat with (2 - j + 1)%nat by lia.
      apply Hf; auto; lia.
  - split; intros Hf i j Hi Hj Hz.
    + specialize (Hf j (3 - i)%nat ltac:(lia) ltac:(lia)).
      rewrite !cell_rotate_cw in Hf by (auto; lia).
      replace (3 - (3 - i))%nat with i in Hf by lia. auto.
    + rewrite !cell_rotate_cw in * by (auto; lia).
      apply Hf; auto; lia.
  - split; intros Hf i j Hi Hj Hz.
    + specialize (Hf (2 - j)%nat i ltac:(lia) ltac:(lia)).
      rewrite !cell_rotate_ccw in Hf by (auto; lia).
      replace (3 - (2 - j + 1))%nat with j in Hf by lia.
      replace (3 - (2 - j))%nat with (j + 1)%nat in Hf by lia.
      auto.
    + rewrite !cell_rotate_ccw in * by (auto; lia).
      replace (3 - (i + 1))%nat with (2 - i)%nat in Hz by lia.
      replace (3 - i)%nat with (2 - i + 1)%nat by lia.
      apply Hf; auto; lia.
Qed.

Lemma map_slideRow_compact g :
  wf_grid g = true -> forallb compact_row (map slideRow g) = true.
Proof.
  intros H. grid_cells g H. cbn [map forallb].
  now rewrite !slideRow_compact.
Qed.

Lemma rows_blocked g :
  wf_grid g = true ->
  (existsb rowMoved g = false <->
   forallb compact_row g = true /\ existsb adjacent_pair g = false).
Proof.
  intros H. grid_cells g H.
  rewrite !existsb_four. cbn [forallb].
  rewrite !rowMoved_blocked.
  repeat match goal with
         | |- context [compact_row ?r] => destruct (compact_row r)
         end;
  repeat match goal with
         | |- context [adjacent_pair ?r] => destruct (adjacent_pair r)
         end; cbn; split; try tauto; try discriminate;
    intros [? ?]; discriminate.
Qed.

(** X2: a slide closes every gap.  After a slide of a 4x4 grid in any
    direction no tile has an empty cell between itself and the edge it
    was pushed towards. *)
Theorem slide_closes_gaps (d : Direction) (g : Grid) :
  wf_grid g = true -> flush d (fst (slide d g)).
Proof.
  intros H. rewrite slide_frame by assumption. cbn [fst].
  pose proof (map_slideRow_wf _ (to_frame_wf d g H)) as Hw.
  apply flush_from_frame; [assumption|].
  apply flush_left_rows; [assumption|].
  apply map_slideRow_compact. now apply to_frame_wf.
Qed.

Lemma slide_closes_gaps_witness :
  wf_grid sample_grid = true /\ flush DRight (fst (slide DRight sample_grid)).
Proof.
  split; [reflexivity|]. exact (slide_closes_gaps DRight sample_grid eq_refl).
Defined.

(** X3: when a direction is blocked.  On a 4x4 grid a slide reports no
    change exactly when the tiles already sit flush against the edge of
    that direction and no two equal tiles are neighbours along it. *)
Theorem slide_blocked_iff (d : Direction) (g : Grid) :
  wf_grid g = true ->
  (snd (slide d g) = false <-> flush d g /\ ~ pair_along d g).
Proof.
  intros H. pose proof (to_frame_wf d g H) as Hw.
  rewrite slide_frame by assumption. cbn [snd].
  rewrite rows_blocked by assumption.
  rewrite <- flush_left_rows by assumption.
  rewrite <- (flush_from_frame d) by assumption.
  rewrite from_to_frame by assumption.
  assert (Hp : existsb adjacent_pair (to_frame d g) = false <-> ~ pair_along d g).
  { rewrite <- (from_to_frame d g H) at 2.
    rewrite pair_along_from_frame, pair_in_row_rows by assumption.
    destruct (existsb adjacent_pair (to_frame d g)); split; congruence. }
  rewrite Hp. reflexivity.
Qed.

Lemma slide_blocked_iff_witness :
  wf_grid full_grid = true /\
  (snd (slide DUp full_grid) = false <->
   flush DUp full_grid /\ ~ pair_along DUp full_grid).
Proof.
  split; [reflexivity|]. exact (slide_blocked_iff DUp full_grid eq_refl).
Defined.

(** ** Sums and numbers of tiles *)

Lemma filter_cons_length {A : Type} (p : A -> bool) x l :
  length (filter p (x :: l)) = ((if p x then 1 else 0) + length (filter p l))%nat.
Proof. simpl. now destruct (p x). Qed.

Lemma tile_count_occupied v :
  (if negb (v =? 0) then 1%nat else 0%nat) = tile_count v.
Proof. unfold tile_count. now destruct (v =? 0). Qed.

Lemma tiles_cells a b c d e f g h i j k l m n o p :
  tiles [[a; b; c; d]; [e; f; g; h]; [i; j; k; l]; [m; n; o; p]] =
  (tile_count a + tile_count b + tile_count c + tile_count d
   + tile_count e + tile_count f + tile_count g + tile_count h
   + tile_count i + tile_count j + tile_count k + tile_count l
   + tile_count m + tile_count n + tile_count o + tile_count p)%nat.
Proof.
  unfold tiles.
  change positions with
    [(0, 0); (0, 1); (0, 2); (0, 3); (1, 0); (1, 1); (1, 2); (1, 3);
     (2, 0); (2, 1); (2, 2); (2, 3); (3, 0); (3, 1); (3, 2); (3, 3)]%nat.
  rewrite !filter_cons_length. cbn [filter length].
  unfold occupied, cell. cbn [fst snd nth].
  rewrite !tile_count_occupied. lia.
Qed.

Lemma slideRow_tile_count a b c d w x y z :
  slideRow [a; b; c; d] = [w; x; y; z] ->
  (tile_count w + tile_count x + tile_count y + tile_count z <=
   tile_count a + tile_count b + tile_count c + tile_count d)%nat /\
  (1 <= tile_count a + tile_count b + tile_count c + tile_count d ->
   1 <= tile_count w + tile_count x + tile_count y + tile_count z)%nat.
Proof.
  unfold tile_count. row_unfold; zcases; intros E; injection E as <- <- <- <-;
    zcases; lia.
Qed.

Lemma tiles_rotate ccw g :
  wf_grid g = true -> tiles (rotateBoard ccw g) = tiles g.
Proof.
  intros H. grid_cells g H.
  destruct ccw; [rewrite rotateBoard_ccw_cells | rewrite rotateBoard_cw_cells];
    rewrite !tiles_cells; lia.
Qed.

Lemma tiles_to_frame d g :
  wf_grid g = true -> tiles (to_frame d g) = tiles g.
Proof.
  intros H. destruct d; cbn [to_frame].
  - reflexivity.
  - rewrite tiles_rotate by (apply rotateBoard_wf, H). now apply tiles_rotate.
  - now apply tiles_rotate.
  - now apply tiles_rotate.
Qed.

Lemma tiles_from_frame d g :
  wf_grid g = true -> tiles (from_frame d g) = tiles g.
Proof.
  intros H. destruct d; cbn [from_frame].
  - reflexivity.
  - rewrite tiles_rotate by (apply rotateBoard_wf, H). now apply tiles_rotate.
  - now apply tiles_rotate.
  - now apply tiles_rotate.
Qed.

Lemma tiles_map_slideRow g :
  wf_grid g = true ->
  (tiles (map slideRow g) <= tiles g)%nat /\
  (1 <= tiles g -> 1 <= tiles (map slideRow g))%nat.
Proof.
  intros H. grid_cells g H. cbn [map].
  destruct (slideRow_cells [x; x0; x1; x2] eq_refl) as (a0 & b0 & c0 & d0 & E0).
  destruct (slideRow_cells [x3; x4; x5; x6] eq_refl) as (a1 & b1 & c1 & d1 & E1).
  destruct (slideRow_cells [x7; x8; x9; x10] eq_refl) as (a2 & b2 & c2 & d2 & E2).
  destruct (slideRow_cells [x11; x12; x13; x14] eq_refl) as (a3 & b3 & c3 & d3 & E3).
  rewrite E0, E1, E2, E3, !tiles_cells.
  apply slideRow_tile_count in E0, E1, E2, E3. lia.
Qed.

Lemma tiles_slide d g :
  wf_grid g = true ->
  (tiles (fst (slide d g)) <= tiles g)%nat /\
  (1 <= tiles g -> 1 <= tiles (fst (slide d g)))%nat.
Proof.
  intros H. rewrite slide_frame by assumption. cbn [fst].
  rewrite tiles_from_frame by (apply map_slideRow_wf, to_frame_wf, H).
  rewrite <- (tiles_to_frame d g H).
  apply tiles_map_slideRow, to_frame_wf, H.
Qed.

(** X4: a slide neither creates nor destroys value.  In every direction
    the sum of the sixteen cells after the slide equals the sum before;
    the number of tiles does not grow, and a grid with a tile keeps at
    least one. *)
Theorem slide_conserves (d : Direction) (g : Grid) :
  wf_grid g = true ->
  grid_sum (fst (slide d g)) = grid_sum g /\
  (tiles (fst (slide d g)) <= tiles g)%nat /\
  (1 <= tiles g -> 1 <= tiles (fst (slide d g)))%nat.
Proof.
  intros H. split; [now apply grid_sum_slide | now apply tiles_slide].
Qed.

Lemma slide_conserves_witness :
  wf_grid twos_grid = true /\
  grid_sum (fst (slide DDown twos_grid)) = grid_sum twos_grid.
Proof.
  split; [reflexivity|]. exact (proj1 (slide_conserves DDown twos_grid eq_refl)).
Defined.

(** X5: what a turn adds.  Under the contract of the random source, a
    [move] on a 4x4 board that returns false leaves the sum of the cells
    and the number of tiles as they were; one that returns true adds 2
    or 4 to the sum and at most one tile.  Hence after [n] moves of a
    game every cell lies between 0 and 8 + 4n. *)
Theorem move_growth {Rng : Type}
    (choose : Z -> Z -> Rng -> Z * Rng) (c : ascii) (b : Board) (s : Rng) :
  in_range choose ->
  wf_grid (grid b) = true ->
  let b' := snd (fst (move choose c b s)) in
  (fst (fst (move choose c b s)) = false ->
   grid_sum (grid b') = grid_sum (grid b) /\ tiles (grid b') = tiles (grid b)) /\
  (fst (fst (move choose c b s)) = true ->
   (grid_sum (grid b') = grid_sum (grid b) + 2 \/
    grid_sum (grid b') = grid_sum (grid b) + 4) /\
   (tiles (grid b') <= tiles (grid b) + 1)%nat) /\
  (forall mode n i j, played choose mode n b -> (i < 4)%nat -> (j < 4)%nat ->
     0 <= cell (grid b) i j <= 8 + 4 * Z.of_nat n).
Proof.
  intros contract H b'. split; [|split].
  - intros Hf. unfold b'.
    destruct (direction_of c) as [d|] eqn:E.
    + rewrite (move_flag choose c d b s E) in Hf.
      now rewrite (move_unmoved choose c d b s H E Hf).
    + now rewrite move_unrecognised.
  - intros Ht. unfold b'.
    destruct (direction_of c) as [d|] eqn:E;
      [|rewrite move_unrecognised in Ht by assumption; discriminate].
    rewrite (move_flag choose c d b s E) in Ht.
    rewrite (move_moved choose c d b s E Ht). cbn [fst snd].
    pose proof (slide_wf d (grid b) H) as Hw.
    destruct (addRandomPiece_cases choose contract
                (mkBoard (fst (slide d (grid b))) (winTarget b)) s)
      as [(Hfull & _) | (i & j & v & Hi & Hj & Hz & Hv & ->)].
    { exfalso. apply Hfull. now apply slide_moved_has_empty. }
    cbn [grid] in *.
    rewrite grid_sum_set_cell, Hz, grid_sum_slide by assumption.
    rewrite tiles_set_cell by (auto; destruct Hv; lia).
    pose proof (proj1 (tiles_slide d (grid b) H)).
    split; [destruct Hv as [-> | ->]; [left | right]; lia | lia].
  - intros mode n i j Hp Hi Hj. now apply (played_bound choose contract mode n).
Qed.

Lemma move_growth_witness :
  in_range counterRng /\ wf_grid (grid sample_board) = true /\
  (fst (fst (move counterRng "L" sample_board 0)) = true ->
   (grid_sum (grid (snd (fst (move counterRng "L" sample_board 0)))) =
      grid_sum (grid sample_board) + 2 \/
    grid_sum (grid (snd (fst (move counterRng "L" sample_board 0)))) =
      grid_sum (grid sample_board) + 4) /\
   (tiles (grid (snd (fst (move counterRng "L" sample_board 0%Z)))) <=
      tiles (grid sample_board) + 1)%nat).
Proof.
  split; [exact counterRng_in_range|]. split; [reflexivity|].
  exact (proj1 (proj2
    (move_growth counterRng "L" sample_board 0 counterRng_in_range eq_refl))).
Defined.

(** ** The algebra of the quarter turns *)

(** X6: the two rotations of a 4x4 grid.  The counter-clockwise turn
    sends cell (i,j) to (3-j,i) and the clockwise turn to (j,3-i); three
    turns one way are one turn the other way, two turns either way are
    the same half turn, and a turn keeps the sum of the cells and the
    number of tiles. *)
Theorem rotateBoard_algebra (g : Grid) :
  wf_grid g = true ->
  (forall i j, (i < 4)%nat -> (j < 4)%nat ->
     cell (rotateBoard true g) (3 - j) i = cell g i j /\
     cell (rotateBoard false g) j (3 - i) = cell g i j) /\
  rotateBoard true (rotateBoard true (rotateBoard true g)) = rotateBoard false g /\
  rotateBoard false (rotateBoard false (rotateBoard false g)) = rotateBoard true g /\
  rotateBoard true (rotateBoard true g) = rotateBoard false (rotateBoard false g) /\
  (forall ccw, wf_grid (rotateBoard ccw g) = true /\
     grid_sum (rotateBoard ccw g) = grid_sum g /\
     tiles (rotateBoard ccw g) = tiles g).
Proof.
  intros H. split; [|split; [|split; [|split]]].
  - intros i j Hi Hj. split.
    + rewrite cell_rotate_ccw by (auto; lia).
      now replace (3 - (3 - j))%nat with j by lia.
    + rewrite cell_rotate_cw by (auto; lia).
      now replace (3 - (3 - i))%nat with i by lia.
  - grid_cells g H. reflexivity.
  - grid_cells g H. reflexivity.
  - grid_cells g H. reflexivity.
  - intros ccw. split; [now apply rotateBoard_wf|].
    split; [now apply grid_sum_rotate | now apply tiles_rotate].
Qed.

Lemma rotateBoard_algebra_witness :
  wf_grid count_grid = true /\
  rotateBoard true (rotateBoard true (rotateBoard true count_grid)) =
  rotateBoard false count_grid.
Proof.
  split; [reflexivity|].
  exact (proj1 (proj2 (rotateBoard_algebra count_grid eq_refl))).
Defined.

(** ** The scan order of the spawn *)

(** X7: the empty squares are scanned in row-major order.  For every
    grid, [emptySquares] is the list (0,0), (0,1), ..., (3,3) with the
    non-empty cells struck out: each empty cell of the 4x4 array appears
    exactly once, and the list has 16 minus the number of tiles entries,
    so the index the random source draws names the k-th empty cell in
    reading order. *)
Theorem emptySquares_order (g : Grid) :
  emptySquares g =
    filter (fun p => cell g (fst p) (snd p) =? 0)
      [(0, 0); (0, 1); (0, 2); (0, 3); (1, 0); (1, 1); (1, 2); (1, 3);
       (2, 0); (2, 1); (2, 2); (2, 3); (3, 0); (3, 1); (3, 2); (3, 3)]%nat /\
  NoDup (emptySquares g) /\
  (length (emptySquares g) + tiles g = 16)%nat.
Proof.
  split; [|split].
  - rewrite emptySquares_positions.
    change positions with
      [(0, 0); (0, 1); (0, 2); (0, 3); (1, 0); (1, 1); (1, 2); (1, 3);
       (2, 0); (2, 1); (2, 2); (2, 3); (3, 0); (3, 1); (3, 2); (3, 3)]%nat.
    apply filter_ext. intros p. unfold occupied. now rewrite negb_involutive.
  - rewrite emptySquares_positions. apply NoDup_filter, positions_NoDup.
  - pose proof (tiles_emptySquares g). lia.
Qed.

(** ** Winning *)

Lemma checkWin_iff b :
  checkWin b = true <-> some_cell (fun v => v = winTarget b) (grid b).
Proof.
  unfold checkWin, some_cell. rewrite existsb_exists. split.
  - intros (i & Hi & He). apply existsb_exists in He as (j & Hj & E).
    apply In_indices in Hi, Hj. apply Z.eqb_eq in E. eauto.
  - intros (i & j & Hi & Hj & E). exists i. split; [now apply In_indices|].
    apply existsb_exists. exists j. split; [now apply In_indices|].
    now apply Z.eqb_eq.
Qed.

Lemma bool_eq_iff (x y : bool) : (x = true <-> y = true) -> x = y.
Proof.
  destruct x, y; intros [H1 H2]; try reflexivity;
    [symmetry; apply H1; reflexivity | apply H2; reflexivity].
Qed.

(** X8: a spawn never wins the game.  On a board that satisfies the
    data-model invariant, [checkWin] answers the same before and after
    [addRandomPiece] (the spawned 2 or 4 is below every win target), and
    a freshly constructed board has not won. *)
Theorem spawn_never_wins {Rng : Type}
    (choose : Z -> Z -> Rng -> Z * Rng) (b : Board) (s : Rng) :
  in_range choose ->
  board_inv b ->
  checkWin (fst (addRandomPiece choose b s)) = checkWin b /\
  forall mode s0, checkWin (fst (Board_init choose mode s0)) = false.
Proof.
  intros contract (Hw & Hok & Ht). split.
  - destruct (addRandomPiece_cases choose contract b s)
      as [(_ & ->) | (i & j & v & Hi & Hj & Hz & Hv & ->)]; [reflexivity|].
    apply bool_eq_iff. rewrite !checkWin_iff. cbn [grid winTarget]. split.
    + intros (i' & j' & Hi' & Hj' & E). exists i', j'. repeat split; auto.
      destruct (Nat.eq_dec i' i) as [->|Ni];
        [destruct (Nat.eq_dec j' j) as [->|Nj]|].
      * rewrite cell_set_cell_same in E by assumption.
        exfalso. destruct Hv, Ht as [?|[?|?]]; lia.
      * rewrite cell_set_cell_other in E by (auto; congruence). exact E.
      * rewrite cell_set_cell_other in E by (auto; congruence). exact E.
    + intros (i' & j' & Hi' & Hj' & E). exists i', j'. repeat split; auto.
      rewrite cell_set_cell_other; auto.
      intros Eq. injection Eq as -> ->. rewrite Hz in E.
      destruct Ht as [?|[?|?]]; lia.
  - intros mode s0.
    destruct (checkWin (fst (Board_init choose mode s0))) eqn:E; [|reflexivity].
    exfalso. apply checkWin_iff in E as (i & j & Hi & Hj & E).
    rewrite (Board_init_winTarget choose contract) in E.
    destruct (Board_init_two_cells choose contract mode s0)
      as (i1 & j1 & v1 & i2 & j2 & v2 & Hi1 & Hj1 & Hi2 & Hj2 & Hv1 & Hv2 & Hne & Eb).
    rewrite Eb in E. cbn [grid] in E.
    assert (Hc : cell (set_cell (set_cell blank i1 j1 v1) i2 j2 v2) i j <= 4).
    { destruct (Nat.eq_dec i i2) as [->|N2];
        [destruct (Nat.eq_dec j j2) as [->|N2]|].
      - rewrite cell_set_cell_same by auto using set_cell_wf. destruct Hv2; lia.
      - rewrite cell_set_cell_other by (auto using set_cell_wf; congruence).
        destruct (Nat.eq_dec i2 i1) as [->|N1];
          [destruct (Nat.eq_dec j j1) as [->|N1]|].
        + rewrite cell_set_cell_same by auto. destruct Hv1; lia.
        + rewrite cell_set_cell_other by (auto; congruence).
          rewrite cell_blank. lia.
        + rewrite cell_set_cell_other by (auto; congruence).
          rewrite cell_blank. lia.
      - rewrite cell_set_cell_other by (auto using set_cell_wf; congruence).
        destruct (Nat.eq_dec i i1) as [->|N1];
          [destruct (Nat.eq_dec j j1) as [->|N1]|].
        + rewrite cell_set_cell_same by auto. destruct Hv1; lia.
        + rewrite cell_set_cell_other by (auto; congruence).
          rewrite cell_blank. lia.
        + rewrite cell_set_cell_other by (auto; congruence).
          rewrite cell_blank. lia. }
    unfold target_of in E.
    destruct (String.eqb mode "E"); [lia|]. destruct (String.eqb mode "M"); lia.
Qed.

Lemma sample_board_inv : board_inv sample_board.
Proof.
  split; [reflexivity|]. split; [|now left].
  intros i j Hi Hj. index4 i Hi; index4 j Hj;
    first [apply cell_ok_0 | apply cell_ok_2 | apply cell_ok_4
          | right; exists 3; split; [lia | reflexivity]].
Qed.

Lemma spawn_never_wins_witness :
  in_range counterRng /\ board_inv sample_board /\
  checkWin (fst (addRandomPiece counterRng sample_board 0)) = checkWin sample_board.
Proof.
  split; [exact counterRng_in_range|]. split; [exact sample_board_inv|].
  exact (proj1 (spawn_never_wins counterRng sample_board 0
                  counterRng_in_range sample_board_inv)).
Defined.

(** ** Tiles never pass the win target *)

Lemma pow2_half x T :
  cell_ok x -> x < T -> T = 256 \/ T = 512 \/ T = 1024 ->
  0 <= x /\ 2 * x <= T.
Proof.
  intros [-> | (k & Hk & ->)] Hlt HT; [lia|].
  assert (Hgen : forall t, 1 <= t -> 2 ^ k < 2 ^ t -> 2 * 2 ^ k <= 2 ^ t).
  { intros t Ht Hl.
    assert (k < t) by (apply (Z.pow_lt_mono_r_iff 2); lia).
    replace t with (Z.succ (t - 1)) by lia. rewrite Z.pow_succ_r by lia.
    apply Z.mul_le_mono_nonneg_l; [lia|]. apply Z.pow_le_mono_r; lia. }
  split; [apply Z.pow_nonneg; lia|].
  destruct HT as [-> | [-> | ->]].
  - apply (Hgen 8); [lia | exact Hlt].
  - apply (Hgen 9); [lia | exact Hlt].
  - apply (Hgen 10); [lia | exact Hlt].
Qed.

Lemma slideRow_below T a b c d :
  0 <= a /\ 2 * a <= T -> 0 <= b /\ 2 * b <= T ->
  0 <= c /\ 2 * c <= T -> 0 <= d /\ 2 * d <= T ->
  Forall (fun v => v <= T) (slideRow [a; b; c; d]).
Proof.
  intros Ha Hb Hc Hd.
  row_unfold; zcases; repeat apply Forall_cons; try apply Forall_nil; lia.
Qed.

Lemma all_cells_rotate P ccw g :
  wf_grid g = true -> all_cells P g -> all_cells P (rotateBoard ccw g).
Proof.
  intros H Hall i j Hi Hj. destruct ccw.
  - rewrite cell_rotate_ccw by assumption. apply Hall; lia.
  - rewrite cell_rotate_cw by assumption. apply Hall; lia.
Qed.

Lemma all_cells_to_frame P d g :
  wf_grid g = true -> all_cells P g -> all_cells P (to_frame d g).
Proof.
  intros H Hall. destruct d; cbn [to_frame].
  - exact Hall.
  - apply all_cells_rotate; [apply rotateBoard_wf, H|].
    apply all_cells_rotate; assumption.
  - apply all_cells_rotate; assumption.
  - apply all_cells_rotate; assumption.
Qed.

Lemma all_cells_from_frame P d g :
  wf_grid g = true -> all_cells P g -> all_cells P (from_frame d g).
Proof.
  intros H Hall. destruct d; cbn [from_frame].
  - exact Hall.
  - apply all_cells_rotate; [apply rotateBoard_wf, H|].
    apply all_cells_rotate; assumption.
  - apply all_cells_rotate; assumption.
  - apply all_cells_rotate; assumption.
Qed.

Lemma all_cells_map_slideRow (Q R : Z -> Prop) g :
  (forall a b c d, Q a -> Q b -> Q c -> Q d -> Forall R (slideRow [a; b; c; d])) ->
  wf_grid g = true -> all_cells Q g -> all_cells R (map slideRow g).
Proof.
  intros Hrow H Hall i j Hi Hj. grid_cells g H.
  index4 i Hi; unfold cell; cbn [map nth];
    (apply Forall_nth;
     [|rewrite slideRow_length by (unfold BOARD_SIZE; simpl; lia);
       unfold BOARD_SIZE; lia]);
    apply Hrow.
  all: first [ exact (Hall 0%nat 0%nat ltac:(lia) ltac:(lia))
             | exact (Hall 0%nat 1%nat ltac:(lia) ltac:(lia))
             | exact (Hall 0%nat 2%nat ltac:(lia) ltac:(lia))
             | exact (Hall 0%nat 3%nat ltac:(lia) ltac:(lia))
             | exact (Hall 1%nat 0%nat ltac:(lia) ltac:(lia))
             | exact (Hall 1%nat 1%nat ltac:(lia) ltac:(lia))
             | exact (Hall 1%nat 2%nat ltac:(lia) ltac:(lia))
             | exact (Hall 1%nat 3%nat ltac:(lia) ltac:(lia))
             | exact (Hall 2%nat 0%nat ltac:(lia) ltac:(lia))
             | exact (Hall 2%nat 1%nat ltac:(lia) ltac:(lia))
             | exact (Hall 2%nat 2%nat ltac:(lia) ltac:(lia))
             | exact (Hall 2%nat 3%nat ltac:(lia) ltac:(lia))
             | exact (Hall 3%nat 0%nat ltac:(lia) ltac:(lia))
             | exact (Hall 3%nat 1%nat ltac:(lia) ltac:(lia))
             | exact (Hall 3%nat 2%nat ltac:(lia) ltac:(lia))
             | exact (Hall 3%nat 3%nat ltac:(lia) ltac:(lia)) ].
Qed.

Lemma slide_below_target d g T :
  wf_grid g = true -> grid_ok g ->
  T = 256 \/ T = 512 \/ T = 1024 ->
  all_cells (fun v => v < T) g ->
  all_cells (fun v => v <= T) (fst (slide d g)).
Proof.
  intros H Hok HT Hlt. rewrite slide_frame by assumption. cbn [fst].
  apply all_cells_from_frame; [apply map_slideRow_wf, to_frame_wf, H|].
  apply (all_cells_map_slideRow (fun x => 0 <= x /\ 2 * x <= T));
    [apply slideRow_below | apply to_frame_wf, H |].
  apply all_cells_to_frame; [assumption|].
  intros i j Hi Hj. apply pow2_half; auto.
Qed.

Lemma move_keeps_below {Rng : Type}
    (choose : Z -> Z -> Rng -> Z * Rng) (c : ascii) (b : Board) (s : Rng) :
  in_range choose ->
  board_inv b ->
  all_cells (fun v => v < winTarget b) (grid b) ->
  all_cells (fun v => v <= winTarget b) (grid (snd (fst (move choose c b s)))).
Proof.
  intros contract (Hw & Hok & Ht) Hlt. unfold move.
  destruct (direction_of c) as [d|];
    [|intros i j Hi Hj; specialize (Hlt i j Hi Hj); cbn [fst snd] in *; lia].
  pose proof (slide_wf d (grid b) Hw) as Hw'.
  pose proof (slide_below_target d (grid b) (winTarget b) Hw Hok Ht Hlt) as Hle.
  destruct (slide d (grid b)) as [g' m]. cbn [fst] in Hw', Hle.
  destruct m; [|exact Hle].
  destruct (addRandomPiece_cases choose contract (mkBoard g' (winTarget b)) s)
    as [(_ & E) | (i & j & v & Hi & Hj & Hz & Hv & E)].
  - rewrite E. exact Hle.
  - destruct (addRandomPiece choose _ s) as [b1 s1]. cbn [fst snd] in *. subst b1.
    cbn [grid]. intros i' j' Hi' Hj'.
    destruct (Nat.eq_dec i' i) as [->|Ni];
      [destruct (Nat.eq_dec j' j) as [->|Nj]|].
    + rewrite cell_set_cell_same by assumption.
      destruct Hv, Ht as [?|[?|?]]; lia.
    + rewrite cell_set_cell_other by (auto; congruence). now apply Hle.
    + rewrite cell_set_cell_other by (auto; congruence). now apply Hle.
Qed.

(** X9: no tile passes the win target unseen.  On a board that satisfies
    the data-model invariant and whose cells are all below the win
    target, a [move] leaves every cell at most equal to the win target:
    a tile larger than the target can only be made from a tile equal to
    it, so testing for equality in [checkWin] misses no win. *)
Theorem move_below_target {Rng : Type}
    (choose : Z -> Z -> Rng -> Z * Rng) (c : ascii) (b : Board) (s : Rng) :
  in_range choose ->
  board_inv b ->
  all_cells (fun v => v < winTarget b) (grid b) ->
  all_cells (fun v => v <= winTarget b) (grid (snd (fst (move choose c b s)))).
Proof. apply move_keeps_below. Qed.

Lemma sample_board_below : all_cells (fun v => v < winTarget sample_board) (grid sample_board).
Proof. intros i j Hi Hj. index4 i Hi; index4 j Hj; reflexivity. Qed.

Lemma move_below_target_witness :
  in_range counterRng /\ board_inv sample_board /\
  all_cells (fun v => v < winTarget sample_board) (grid sample_board) /\
  all_cells (fun v => v <= winTarget sample_board)
    (grid (snd (fst (move counterRng "D" sample_board 1)))).
Proof.
  split; [exact counterRng_in_range|]. split; [exact sample_board_inv|].
  split; [exact sample_board_below|].
  exact (move_below_target counterRng "D" sample_board 1
           counterRng_in_range sample_board_inv sample_board_below).
Defined.

(* ================================================================= *)
(** * The display *)

Lemma string_length_append s1 s2 :
  String.length (String.append s1 s2) = (String.length s1 + String.length s2)%nat.
Proof. induction s1 as [|c t IH]; simpl; [reflexivity | now rewrite IH]. Qed.

Lemma spaces_length n : String.length (spaces n) = n.
Proof. induction n as [|n IH]; simpl; [reflexivity | now rewrite IH]. Qed.

Lemma setw_length w s :
  String.length (setw w s) = Nat.max w (String.length s).
Proof. unfold setw. rewrite string_length_append, spaces_length. lia. Qed.

Lemma show_int_widths :
  forallb (fun n => (String.length (show_int (Z.of_nat n)) <=? 4)%nat)
          (seq 1 (Z.to_nat 9999)) = true.
Proof. vm_compute. reflexivity. Qed.

Lemma show_int_width v :
  1 <= v <= 9999 -> (String.length (show_int v) <= 4)%nat.
Proof.
  intros Hv. pose proof show_int_widths as H.
  rewrite forallb_forall in H.
  specialize (H (Z.to_nat v)). rewrite Z2Nat.id in H by lia.
  apply Nat.leb_le, H, in_seq. lia.
Qed.

Lemma display_cell_length v :
  String.length (display_cell v) =
  if v =? 0 then 5%nat else (Nat.max 4 (String.length (show_int v)) + 1)%nat.
Proof.
  unfold display_cell. destruct (v =? 0); [reflexivity|].
  now rewrite string_length_append, setw_length.
Qed.

Lemma display_cell_narrow v :
  0 <= v <= 9999 -> String.length (display_cell v) = 5%nat.
Proof.
  intros Hv. rewrite display_cell_length.
  destruct (Z.eqb_spec v 0); [reflexivity|].
  pose proof (show_int_width v ltac:(lia)). lia.
Qed.

Lemma display_row_length g i :
  String.length (display_row g i) =
  (1 + String.length (display_cell (cell g i 0))
     + String.length (display_cell (cell g i 1))
     + String.length (display_cell (cell g i 2))
     + String.length (display_cell (cell g i 3)))%nat.
Proof.
  unfold display_row, indices, BOARD_SIZE. cbn [seq fold_left].
  now rewrite !string_length_append.
Qed.

Lemma display_lines_nine g :
  display_lines g =
  [border; display_row g 0; border; display_row g 1; border;
   display_row g 2; border; display_row g 3; border].
Proof. reflexivity. Qed.

(** X10: the table [display] prints.  It has nine lines: a border of 21
    dashes, then for each of the four rows the row and a border.  A cell
    takes the width of its number, at least 4, plus the bar; so on a
    grid whose cells lie between 0 and 9999 every line is exactly 21
    characters wide and the whole output is 198 characters. *)
Theorem display_aligned (g : Grid) :
  all_cells (fun v => 0 <= v <= 9999) g ->
  (forall v, v <> 0 ->
     String.length (display_cell v) =
     (Nat.max 4 (String.length (show_int v)) + 1)%nat) /\
  length (display_lines g) = 9%nat /\
  Forall (fun l => String.length l = 21%nat) (display_lines g) /\
  String.length (display g) = 198%nat.
Proof.
  intros Hall.
  assert (Hrow : forall i, (i < 4)%nat -> String.length (display_row g i) = 21%nat).
  { intros i Hi. rewrite display_row_length.
    rewrite !display_cell_narrow by (apply Hall; lia). reflexivity. }
  split; [|split; [reflexivity|split]].
  - intros v Hv. rewrite display_cell_length.
    now destruct (Z.eqb_spec v 0).
  - rewrite display_lines_nine.
    repeat (apply Forall_cons; [first [reflexivity | apply Hrow; lia]|]).
    apply Forall_nil.
  - unfold display. rewrite display_lines_nine. cbn [map String.concat].
    rewrite !string_length_append, !Hrow by lia. reflexivity.
Qed.

Lemma sample_grid_narrow : all_cells (fun v => 0 <= v <= 9999) sample_grid.
Proof. intros i j Hi Hj. index4 i Hi; index4 j Hj; cbn; lia. Qed.

Lemma display_aligned_witness :
  all_cells (fun v => 0 <= v <= 9999) sample_grid /\
  Forall (fun l => String.length l = 21%nat) (display_lines sample_grid).
Proof.
  split; [exact sample_grid_narrow|].
  exact (proj1 (proj2 (proj2 (display_aligned sample_grid sample_grid_narrow)))).
Defined.

(* ================================================================= *)
(** * The driver *)

(** ** What the driver lets through to [move] *)

Lemma invalid_move_single c :
  invalid_move (String c EmptyString) =
  match direction_of c with Some _ => false | None => true end.
Proof. destruct c as [[] [] [] [] [] [] [] []]; reflexivity. Qed.

(** X11: the driver and the engine agree on what a direction is.  A
    word passes the driver's test (no "Error: Invalid move.") exactly
    when it is a single character that [move] recognises as a direction;
    so inside the loop [move] never takes its default case and the
    message "Invalid move direction." always means a blocked move.  The
    quit words Q and q are not directions. *)
Theorem driver_accepts_directions (mv : string) :
  (invalid_move mv = false <->
   exists c d, mv = String c EmptyString /\ direction_of c = Some d) /\
  (invalid_move mv = false -> direction_of (first_char mv) <> None) /\
  (quit_word mv = true -> invalid_move mv = true).
Proof.
  assert (Hiff : invalid_move mv = false <->
                 exists c d, mv = String c EmptyString /\ direction_of c = Some d).
  { destruct mv as [|c [|c' t]].
    - split; [discriminate | intros (c & d & E & _); discriminate].
    - rewrite invalid_move_single. split.
      + intros H. exists c. destruct (direction_of c) as [d|]; [|discriminate].
        now exists d.
      + intros (c0 & d & E & Hd). injection E as <-. now rewrite Hd.
    - split; [discriminate | intros (c0 & d & E & _); discriminate]. }
  split; [exact Hiff|]. split.
  - intros H. apply Hiff in H as (c & d & -> & Hd). cbn [first_char]. congruence.
  - unfold quit_word. rewrite orb_true_iff, !String.eqb_eq.
    intros [-> | ->]; reflexivity.
Qed.

(** ** Asking for the mode *)

Lemma read_mode_skip bad : forall m rest out,
  Forall (fun w => invalid_mode w = true) bad ->
  invalid_mode m = false ->
  read_mode (bad ++ m :: rest) out =
  (Some (m, rest),
   out ++ flat_map (fun _ => [mode_prompt; mode_error]) bad ++ [mode_prompt]).
Proof.
  induction bad as [|w t IH]; intros m rest out Hb Hm.
  - simpl. now rewrite Hm.
  - inversion Hb as [|? ? Hw Ht]; subst. simpl. rewrite Hw.
    rewrite IH by assumption. now rewrite <- app_assoc.
Qed.

Lemma read_mode_valid inputs : forall out m rest out',
  read_mode inputs out = (Some (m, rest), out') ->
  invalid_mode m = false /\ In m inputs /\
  exists bad, inputs = bad ++ m :: rest /\
              Forall (fun w => invalid_mode w = true) bad.
Proof.
  induction inputs as [|w t IH]; intros out m rest out' E; [discriminate|].
  simpl in E. destruct (invalid_mode w) eqn:Hw.
  - apply IH in E as (Hm & Hin & bad & -> & Hb).
    split; [assumption|]. split; [now right|].
    exists (w :: bad). split; [reflexivity | now constructor].
  - injection E as <- <- <-. split; [assumption|]. split; [now left|].
    exists []. split; [reflexivity | constructor].
Qed.

Lemma invalid_mode_false m :
  invalid_mode m = false <-> m = "E"%string \/ m = "M"%string \/ m = "H"%string.
Proof.
  unfold invalid_mode. rewrite <- !String.eqb_eq.
  destruct (String.eqb m "E"), (String.eqb m "M"), (String.eqb m "H");
    cbn; intuition discriminate.
Qed.

(** X12: the mode the game is played in.  The loop that asks for the
    mode skips every word that is not E, M or H, printing the prompt and
    one error for each, and takes the first word that is; if no word is
    valid it is still asking when the input runs out. *)
Theorem read_mode_first_valid (inputs out : list string) :
  (forall bad m rest,
     inputs = bad ++ m :: rest ->
     Forall (fun w => invalid_mode w = true) bad ->
     m = "E"%string \/ m = "M"%string \/ m = "H"%string ->
     read_mode inputs out =
     (Some (m, rest),
      out ++ flat_map (fun _ => [mode_prompt; mode_error]) bad ++ [mode_prompt])) /\
  (forall m rest out',
     read_mode inputs out = (Some (m, rest), out') ->
     (m = "E"%string \/ m = "M"%string \/ m = "H"%string) /\
     exists bad, inputs = bad ++ m :: rest /\
                 Forall (fun w => invalid_mode w = true) bad) /\
  (Forall (fun w => invalid_mode w = true) inputs ->
   fst (read_mode inputs out) = None).
Proof.
  split; [|split].
  - intros bad m rest -> Hb Hm. apply read_mode_skip; [assumption|].
    now apply invalid_mode_false.
  - intros m rest out' E. apply read_mode_valid in E as (Hm & _ & Hb).
    split; [now apply invalid_mode_false | exact Hb].
  - revert out. induction inputs as [|w t IH]; intros out Hall; [reflexivity|].
    inversion Hall as [|? ? Hw Ht]; subst. simpl. rewrite Hw. now apply IH.
Qed.

Lemma driver_accepts_directions_witness :
  invalid_move "L" = false <->
  exists c d, "L"%string = String c EmptyString /\ direction_of c = Some d.
Proof. exact (proj1 (driver_accepts_directions "L")). Defined.

Lemma read_mode_first_valid_witness :
  read_mode ["x"; "easy"; "M"; "L"]%string [seed_prompt] =
  (Some ("M"%string, ["L"%string]),
   [seed_prompt] ++
   flat_map (fun _ => [mode_prompt; mode_error]) ["x"; "easy"]%string ++ [mode_prompt]).
Proof.
  refine (proj1 (read_mode_first_valid ["x"; "easy"; "M"; "L"]%string [seed_prompt])
            ["x"; "easy"]%string "M"%string ["L"%string] eq_refl _ _).
  - repeat constructor.
  - right. left. reflexivity.
Defined.

(** ** The game loop *)

Section Loop.

Context {Rng : Type} (choose : Z -> Z -> Rng -> Z * Rng).

Lemma game_loop_nil b s out :
  game_loop choose [] b s out =
  if isGameOver (grid b) then LoopExit b s out
  else LoopStarved b s (out ++ [display (grid b); move_prompt]).
Proof. reflexivity. Qed.

Lemma game_loop_cons mv rest b s out :
  game_loop choose (mv :: rest) b s out =
  if isGameOver (grid b) then LoopExit b s out
  else
    if quit_word mv then LoopExit b s (out ++ [display (grid b); move_prompt])
    else if invalid_move mv
         then game_loop choose rest b s
                (out ++ [display (grid b); move_prompt] ++ [move_error])
    else
      if negb (fst (fst (move choose (first_char mv) b s)))
      then game_loop choose rest
             (snd (fst (move choose (first_char mv) b s)))
             (snd (move choose (first_char mv) b s))
             (out ++ [display (grid b); move_prompt] ++ [blocked_msg])
      else if checkWin (snd (fst (move choose (first_char mv) b s)))
           then LoopExit (snd (fst (move choose (first_char mv) b s)))
                  (snd (move choose (first_char mv) b s))
                  (out ++ [display (grid b); move_prompt] ++
                   [display (grid (snd (fst (move choose (first_char mv) b s))));
                    win_msg])
           else game_loop choose rest
                  (snd (fst (move choose (first_char mv) b s)))
                  (snd (move choose (first_char mv) b s))
                  (out ++ [display (grid b); move_prompt]).
Proof.
  cbn [game_loop]. destruct (isGameOver (grid b)); [reflexivity|].
  destruct (quit_word mv); [reflexivity|].
  destruct (invalid_move mv); [now rewrite <- app_assoc|].
  destruct (move choose (first_char mv) b s) as [[moved b1] s1]. cbn [fst snd].
  destruct moved; cbn [negb]; [|now rewrite <- app_assoc].
  destruct (checkWin b1); [now rewrite <- app_assoc | reflexivity].
Qed.

Lemma game_loop_over inputs b s out :
  isGameOver (grid b) = true -> game_loop choose inputs b s out = LoopExit b s out.
Proof.
  intros H. destruct inputs; [rewrite game_loop_nil | rewrite game_loop_cons];
    now rewrite H.
Qed.

Lemma game_loop_out_irrelevant inputs : forall b s out1 out2,
  loop_state (game_loop choose inputs b s out1) =
  loop_state (game_loop choose inputs b s out2).
Proof.
  induction inputs as [|mv rest IH]; intros b s out1 out2.
  - rewrite !game_loop_nil. now destruct (isGameOver (grid b)).
  - rewrite !game_loop_cons.
    destruct (isGameOver (grid b)); [reflexivity|].
    destruct (quit_word mv); [reflexivity|].
    destruct (invalid_move mv); [apply IH|].
    destruct (negb (fst (fst (move choose (first_char mv) b s)))); [apply IH|].
    destruct (checkWin _); [reflexivity | apply IH].
Qed.

Lemma move_false_same c b s :
  wf_grid (grid b) = true ->
  fst (fst (move choose c b s)) = false -> move choose c b s = (false, b, s).
Proof.
  intros H Hf. destruct (direction_of c) as [d|] eqn:E.
  - apply (move_unmoved choose c d); auto.
    now rewrite <- (move_flag choose c d b s E).
  - now apply move_unrecognised.
Qed.

Lemma invalid_word_skipped pre : forall mv rest b s out,
  invalid_move mv = true -> quit_word mv = false ->
  loop_state (game_loop choose (pre ++ mv :: rest) b s out) =
  loop_state (game_loop choose (pre ++ rest) b s out).
Proof.
  induction pre as [|w t IH]; intros mv rest b s out Hi Hq.
  - cbn [app]. rewrite game_loop_cons.
    destruct (isGameOver (grid b)) eqn:Ho.
    + now rewrite game_loop_over.
    + rewrite Hq, Hi. apply game_loop_out_irrelevant.
  - cbn [app]. rewrite !game_loop_cons.
    destruct (isGameOver (grid b)); [reflexivity|].
    destruct (quit_word w); [reflexivity|].
    destruct (invalid_move w); [now apply IH|].
    destruct (negb (fst (fst (move choose (first_char w) b s)))); [now apply IH|].
    destruct (checkWin _); [reflexivity | now apply IH].
Qed.

End Loop.

(** X13: words that change nothing.  A word that is neither a quit
    word nor a valid move can be struck from the input anywhere without
    changing where the game loop ends (the board, the state of the
    random source, and whether the loop has exited); and a valid move in
    a blocked direction likewise leaves the board and the random source
    as they were before it. *)
Theorem ignored_words {Rng : Type}
    (choose : Z -> Z -> Rng -> Z * Rng)
    (pre : list string) (mv : string) (rest : list string)
    (b : Board) (s : Rng) (out : list string) :
  quit_word mv = false ->
  (invalid_move mv = true ->
   loop_state (game_loop choose (pre ++ mv :: rest) b s out) =
   loop_state (game_loop choose (pre ++ rest) b s out)) /\
  (wf_grid (grid b) = true ->
   invalid_move mv = false ->
   fst (fst (move choose (first_char mv) b s)) = false ->
   loop_state (game_loop choose (mv :: rest) b s out) =
   loop_state (game_loop choose rest b s out)).
Proof.
  intros Hq. split.
  - intros Hi. now apply invalid_word_skipped.
  - intros Hw Hi Hf. rewrite game_loop_cons.
    destruct (isGameOver (grid b)) eqn:Ho; [now rewrite game_loop_over|].
    rewrite Hq, Hi, (move_false_same choose _ b s Hw Hf). cbn [fst snd negb].
    apply game_loop_out_irrelevant.
Qed.

Lemma ignored_words_witness :
  quit_word "hello" = false /\ invalid_move "hello" = true /\
  loop_state (game_loop counterRng (["L"%string] ++ "hello"%string :: ["U"%string])
                sample_board 0 []) =
  loop_state (game_loop counterRng (["L"%string] ++ ["U"%string]) sample_board 0 []).
Proof.
  split; [reflexivity|]. split; [reflexivity|].
  exact (proj1 (ignored_words counterRng ["L"%string] "hello" ["U"%string]
                  sample_board 0 [] eq_refl) eq_refl).
Defined.

(** ** A whole game *)

Lemma display_head g : exists t, display g = String "-" t.
Proof.
  unfold display. rewrite display_lines_nine. cbn [map String.concat].
  unfold border. cbn [String.append]. eexists. reflexivity.
Qed.

Lemma display_not_win g : display g <> win_msg.
Proof. destruct (display_head g) as (t & ->). discriminate. Qed.

Lemma display_not_lose g : display g <> lose_msg.
Proof. destruct (display_head g) as (t & ->). discriminate. Qed.

Lemma below_not_won b :
  all_cells (fun v => v < winTarget b) (grid b) -> checkWin b = false.
Proof.
  intros Hlt. destruct (checkWin b) eqn:E; [|reflexivity].
  apply checkWin_iff in E as (i & j & Hi & Hj & E).
  specialize (Hlt i j Hi Hj). cbn beta in Hlt. lia.
Qed.

Lemma not_won_below b :
  all_cells (fun v => v <= winTarget b) (grid b) -> checkWin b = false ->
  all_cells (fun v => v < winTarget b) (grid b).
Proof.
  intros Hle Hn i j Hi Hj. specialize (Hle i j Hi Hj). cbn beta in *.
  assert (cell (grid b) i j <> winTarget b); [|lia].
  intros E. assert (checkWin b = true); [|congruence].
  apply checkWin_iff. exists i, j. auto.
Qed.

Section Game.

Context {Rng : Type} (choose : Z -> Z -> Rng -> Z * Rng).
Hypothesis contract : in_range choose.

(** Nothing the loop prints before a win is a verdict. *)
Lemma prompt_quiet (x : string) out g extra :
  (x = win_msg \/ x = lose_msg) ->
  ~ In x out -> ~ In x extra ->
  ~ In x (out ++ [display g; move_prompt] ++ extra).
Proof.
  intros Hx Ho He Hin.
  apply in_app_iff in Hin as [Hin | Hin]; [contradiction|].
  apply in_app_iff in Hin as [Hin | Hin]; [|contradiction].
  destruct Hin as [Hin | [Hin | []]].
  - destruct Hx as [-> | ->];
      [now apply (display_not_win g) | now apply (display_not_lose g)].
  - destruct Hx as [-> | ->]; discriminate Hin.
Qed.

Lemma game_loop_spec mode inputs : forall b s out,
  reachable choose mode b ->
  all_cells (fun v => v < winTarget b) (grid b) ->
  ~ In win_msg out -> ~ In lose_msg out ->
  let r := game_loop choose inputs b s out in
  let b' := snd (fst (loop_state r)) in
  reachable choose mode b' /\
  all_cells (fun v => v <= winTarget b') (grid b') /\
  ~ In lose_msg (loop_out r) /\
  (In win_msg (loop_out r) <-> checkWin b' = true).
Proof.
  assert (Hstop : forall b out,
    reachable choose mode b ->
    all_cells (fun v => v < winTarget b) (grid b) ->
    ~ In win_msg out -> ~ In lose_msg out ->
    reachable choose mode b /\
    all_cells (fun v => v <= winTarget b) (grid b) /\
    ~ In lose_msg out /\ (In win_msg out <-> checkWin b = true)).
  { intros b out Hr Hlt Hw Hl. split; [assumption|]. split.
    - intros i j Hi Hj. specialize (Hlt i j Hi Hj). cbn beta in *. lia.
    - split; [assumption|]. rewrite (below_not_won b Hlt).
      split; [contradiction | discriminate]. }
  induction inputs as [|mv rest IH]; intros b s out Hr Hlt Hw Hl.
  - rewrite game_loop_nil. destruct (isGameOver (grid b)); cbn zeta;
      cbn [loop_state loop_out fst snd].
    + now apply Hstop.
    + apply Hstop; auto.
      * rewrite <- (app_nil_r [_; _]). apply prompt_quiet; auto.
      * rewrite <- (app_nil_r [_; _]). apply prompt_quiet; auto.
  - rewrite game_loop_cons. destruct (isGameOver (grid b)).
    { cbn zeta. cbn [loop_state loop_out fst snd]. now apply Hstop. }
    destruct (quit_word mv).
    { cbn zeta. cbn [loop_state loop_out fst snd]. apply Hstop; auto.
      - rewrite <- (app_nil_r [_; _]). apply prompt_quiet; auto.
      - rewrite <- (app_nil_r [_; _]). apply prompt_quiet; auto. }
    destruct (invalid_move mv).
    { apply IH; auto.
      - apply prompt_quiet; auto. intros [E | []]; discriminate E.
      - apply prompt_quiet; auto. intros [E | []]; discriminate E. }
    pose proof (reachable_inv choose contract mode b Hr) as (Hinv & _).
    pose proof (move_keeps_below choose (first_char mv) b s contract Hinv Hlt) as Hle.
    pose proof (move_winTarget choose contract (first_char mv) b s) as HT.
    pose proof (reach_move choose mode b (first_char mv) s Hr) as Hr'.
    rewrite <- HT in Hle.
    destruct (fst (fst (move choose (first_char mv) b s))) eqn:Hm; cbn [negb].
    + destruct (checkWin (snd (fst (move choose (first_char mv) b s)))) eqn:Hc.
      * cbn zeta. cbn [loop_state loop_out fst snd].
        split; [assumption|]. split; [assumption|]. split.
        -- apply prompt_quiet; auto.
           intros [E | [E | []]]; [now apply display_not_lose in E | discriminate E].
        -- split; [intros _; exact Hc|]. intros _.
           apply in_app_iff. right. right. right. right. now left.
      * apply IH; auto.
        -- now apply not_won_below.
        -- rewrite <- (app_nil_r [_; _]). apply prompt_quiet; auto.
        -- rewrite <- (app_nil_r [_; _]). apply prompt_quiet; auto.
    + destruct Hinv as (Hwf & _).
      rewrite (move_false_same choose _ b s Hwf Hm). cbn [fst snd].
      apply IH; auto.
      * apply prompt_quiet; auto. intros [E | []]; discriminate E.
      * apply prompt_quiet; auto. intros [E | []]; discriminate E.
Qed.

Lemma Board_init_below mode s :
  all_cells (fun v => v < winTarget (fst (Board_init choose mode s)))
            (grid (fst (Board_init choose mode s))).
Proof.
  intros i j Hi Hj. cbn beta.
  pose proof (board_inv_init choose contract mode s) as (Hw & Hok & _).
  pose proof (cell_le_grid_sum _ i j Hw Hok Hi Hj).
  pose proof (grid_sum_init choose contract mode s).
  rewrite (Board_init_winTarget choose contract). unfold target_of.
  destruct (String.eqb mode "E"); [lia|]. destruct (String.eqb mode "M"); lia.
Qed.

Lemma read_mode_quiet x inputs : forall out,
  (x = win_msg \/ x = lose_msg) -> ~ In x out ->
  ~ In x (snd (read_mode inputs out)).
Proof.
  induction inputs as [|w t IH]; intros out Hx Ho; simpl.
  - intros Hin. apply in_app_iff in Hin as [Hin | [Hin | []]]; [contradiction|].
    destruct Hx as [-> | ->]; discriminate Hin.
  - destruct (invalid_mode w).
    + apply IH; [assumption|]. intros Hin.
      apply in_app_iff in Hin as [Hin | [Hin | [Hin | []]]]; [contradiction | |];
        destruct Hx as [-> | ->]; discriminate Hin.
    + simpl. intros Hin.
      apply in_app_iff in Hin as [Hin | [Hin | []]]; [contradiction|].
      destruct Hx as [-> | ->]; discriminate Hin.
Qed.

Lemma main_exit (seed : Z -> Rng) randSeed inputs b s out :
  main choose seed randSeed inputs = Exited b s out ->
  exists mode rest out0 out1,
    read_mode inputs [seed_prompt] = (Some (mode, rest), out0) /\
    loop_state (game_loop choose rest (fst (Board_init choose mode (seed randSeed)))
                  (snd (Board_init choose mode (seed randSeed))) out0)
      = (true, b, s) /\
    loop_out (game_loop choose rest (fst (Board_init choose mode (seed randSeed)))
                (snd (Board_init choose mode (seed randSeed))) out0) = out1 /\
    out = if isGameOver (grid b) then out1 ++ [display (grid b); lose_msg] else out1.
Proof.
  unfold main. intros E.
  destruct (read_mode inputs [seed_prompt]) as [[[mode rest]|] out0];
    [|discriminate].
  exists mode, rest, out0.
  destruct (Board_init choose mode (seed randSeed)) as [b0 s0]. cbn [fst snd].
  destruct (game_loop choose rest b0 s0 out0) as [b1 s1 out1 | b1 s1 out1];
    [|discriminate].
  exists out1. cbn [loop_state loop_out].
  destruct (isGameOver (grid b1)) eqn:Ho; injection E as <- <- <-;
    rewrite ?Ho; auto.
Qed.

Lemma main_spec (seed : Z -> Rng) randSeed inputs b s out :
  main choose seed randSeed inputs = Exited b s out ->
  (exists mode,
     (mode = "E"%string \/ mode = "M"%string \/ mode = "H"%string) /\
     In mode inputs /\ reachable choose mode b) /\
  all_cells (fun v => v <= winTarget b) (grid b) /\
  (In win_msg out <-> checkWin b = true) /\
  (In lose_msg out <-> isGameOver (grid b) = true).
Proof.
  intros E.
  destruct (main_exit seed randSeed inputs b s out E)
    as (mode & rest & out0 & out1 & Hm & Hs & Ho & ->).
  pose proof (read_mode_quiet win_msg inputs [seed_prompt] (or_introl eq_refl)) as Hqw.
  pose proof (read_mode_quiet lose_msg inputs [seed_prompt] (or_intror eq_refl)) as Hql.
  rewrite Hm in Hqw, Hql. cbn [snd] in Hqw, Hql.
  pose proof (game_loop_spec mode rest
                (fst (Board_init choose mode (seed randSeed)))
                (snd (Board_init choose mode (seed randSeed))) out0
                (reach_init choose mode (seed randSeed))
                (Board_init_below mode (seed randSeed))) as Hspec.
  cbn zeta in Hspec. rewrite Hs, Ho in Hspec. cbn [fst snd] in Hspec.
  assert (Hw0 : ~ In win_msg out0)
    by (apply Hqw; intros [D | []]; discriminate D).
  assert (Hl0 : ~ In lose_msg out0)
    by (apply Hql; intros [D | []]; discriminate D).
  destruct (Hspec Hw0 Hl0) as (Hr & Hle & Hnl & Hwin).
  apply read_mode_valid in Hm as (Hv & Hin & _).
  split; [exists mode; split; [now apply invalid_mode_false | auto]|].
  split; [assumption|]. split.
  - rewrite <- Hwin. destruct (isGameOver (grid b)); [|reflexivity].
    rewrite in_app_iff. split; [|auto].
    intros [Hin' | [D | [D | []]]]; [assumption | |].
    + now apply display_not_win in D.
    + discriminate D.
  - destruct (isGameOver (grid b)).
    + split; [reflexivity|]. intros _. apply in_app_iff. right. right. now left.
    + split; [contradiction | discriminate].
Qed.

End Game.

(** X14: the board a finished game leaves.  Under the contract of the
    random source, whenever [main] returns, the mode it played is one of
    the typed words E, M or H, the board is one the engine can reach in
    that mode (so it is 4x4, every cell is 0 or a power of two, at least
    one cell holds a tile and the win target is the one of the mode),
    and no cell is larger than the win target. *)
Theorem main_final_board {Rng : Type}
    (choose : Z -> Z -> Rng -> Z * Rng) (seed : Z -> Rng) (randSeed : Z)
    (inputs : list string) (b : Board) (s : Rng) (out : list string) :
  in_range choose ->
  main choose seed randSeed inputs = Exited b s out ->
  (exists mode,
     (mode = "E"%string \/ mode = "M"%string \/ mode = "H"%string) /\
     In mode inputs /\ reachable choose mode b /\
     winTarget b = target_of mode) /\
  board_inv b /\ has_tile (grid b) /\
  all_cells (fun v => v <= winTarget b) (grid b).
Proof.
  intros contract E.
  destruct (main_spec choose contract seed randSeed inputs b s out E)
    as ((mode & Hm & Hin & Hr) & Hle & _).
  pose proof (reachable_inv choose contract mode b Hr) as (Hinv & HT).
  split; [exists mode; auto|]. split; [assumption|]. split; [|assumption].
  now apply (reachable_has_tile choose contract mode).
Qed.

Lemma main_final_board_witness :
  in_range counterRng /\
  exists b s out,
    main counterRng (fun z => z) 7 ["E"; "L"; "Q"]%string = Exited b s out /\
    all_cells (fun v => v <= winTarget b) (grid b).
Proof.
  split; [exact counterRng_in_range|].
  eexists _, _, _. split; [reflexivity|].
  exact (proj2 (proj2 (proj2
    (main_final_board counterRng (fun z => z) 7 ["E"; "L"; "Q"]%string _ _ _
       counterRng_in_range eq_refl)))).
Defined.

(** X15: the verdicts.  Under the contract of the random source,
    whenever [main] returns, "You win!" is among the lines it printed
    exactly when the final board holds a cell equal to the win target,
    and "You lose." exactly when the final board is game over. *)
Theorem main_verdict {Rng : Type}
    (choose : Z -> Z -> Rng -> Z * Rng) (seed : Z -> Rng) (randSeed : Z)
    (inputs : list string) (b : Board) (s : Rng) (out : list string) :
  in_range choose ->
  main choose seed randSeed inputs = Exited b s out ->
  (In win_msg out <-> checkWin b = true) /\
  (In lose_msg out <-> isGameOver (grid b) = true).
Proof.
  intros contract E.
  now destruct (main_spec choose contract seed randSeed inputs b s out E)
    as (_ & _ & Hw & Hl).
Qed.

Lemma main_verdict_witness :
  in_range counterRng /\
  exists b s out,
    main counterRng (fun z => z) 7 ["E"; "L"; "Q"]%string = Exited b s out /\
    (In win_msg out <-> checkWin b = true).
Proof.
  split; [exact counterRng_in_range|].
  eexists _, _, _. split; [reflexivity|].
  exact (proj1
    (main_verdict counterRng (fun z => z) 7 ["E"; "L"; "Q"]%string _ _ _
       counterRng_in_range eq_refl)).
Defined.
